(** * OpenSooq listings analyzer: scraping and aggregation pipeline

    A shallow embedding of [backend/src/services/scraper.ts] and of
    [detectOutliers] from [frontend/src/App.tsx].

    Conventions of the embedding:
    - a JavaScript [number] is an exact rational ([Q]); [NaN] only arises
      from [parseFloat] and is modelled by [None]; binary rounding and
      overflow of doubles are outside the model;
    - a JavaScript string is a [string] of bytes;
    - [Record<string, string | string[]>] is a [gmap string AttrValue]
      (every label is an ordinary key);
    - [Set<string>] is a [gset string];
    - asynchronous, throwing code lives in the monad [M] (network state
      passing with an error result). *)

From Stdlib Require Import Ascii QArith Qround Qminmax Qpower Lqa.
From stdpp Require Import gmap strings list sorting.

Local Open Scope Q_scope.

(** ** JavaScript numbers *)

Module JS.

(** [a > b] and [a < b] on numbers. *)
Definition gt (a b : Q) : bool := negb (Qle_bool a b).
Definition lt (a b : Q) : bool := negb (Qle_bool b a).

(** [Math.floor] and [Math.round] (halves go towards plus infinity). *)
Definition Math_floor (x : Q) : Z := Qfloor x.



End JS.

(** ** Data model ([types.ts]) *)

Inductive AttrValue :=
| Scalar (s : string)
| Multi (l : list string).

Record ScrapedItem := mkItem {
  link : string;
  title : string;
  image : string;
  price : option Q;
  priceText : string;
  description : string;
  attributes : gmap string AttrValue
}.


(** ** Aggregation (the tail of [scrapeOpenSooq]) *)

(** [item.price !== null && item.price > 0] *)
Definition has_price (item : ScrapedItem) : bool :=
  match price item with
  | Some p => JS.gt p 0
  | None => false
  end.


(** ** JavaScript strings *)

Module Str.

Definition is_digit (c : ascii) : bool :=
  let n := nat_of_ascii c in ((48 <=? n) && (n <=? 57))%nat.

(** White space and line terminators that [trim] and [parseFloat] skip:
    among the code units below 256 these are the tab, the line feed, the
    vertical tab, the form feed, the carriage return, the space and the
    no-break space (U+00A0). *)
Definition is_space (c : ascii) : bool :=
  let n := nat_of_ascii c in
  ((n =? 9) || (n =? 10) || (n =? 11) || (n =? 12) || (n =? 13) || (n =? 32)
   || (n =? 160))%nat.

(** [!s] and its negation for a string. *)
Definition is_empty (s : string) : bool :=
  match s with EmptyString => true | String _ _ => false end.
Definition truthy (s : string) : bool := negb (is_empty s).

Fixpoint trimStart (s : string) : string :=
  match s with
  | EmptyString => EmptyString
  | String c r => if is_space c then trimStart r else s
  end.

Fixpoint trimEnd (s : string) : string :=
  match s with
  | EmptyString => EmptyString
  | String c r =>
      let r' := trimEnd r in
      if is_space c && is_empty r' then EmptyString else String c r'
  end.

Definition trim (s : string) : string := trimEnd (trimStart s).

(** [s.split(sep)] for a one-character separator. *)
Fixpoint split (sep : ascii) (s : string) : list string :=
  match s with
  | EmptyString => [EmptyString]
  | String c r =>
      match split sep r with
      | [] => [EmptyString]
      | h :: t => if Ascii.eqb c sep then EmptyString :: h :: t else String c h :: t
      end
  end.

(** [s.startsWith(p)] *)
Definition startsWith (p s : string) : bool := String.prefix p s.

(** [s.substring(0, n)] *)
Definition substring0 (n : nat) (s : string) : string := String.substring 0 n s.

(** [s.replace(/[^\d.]/g, '')]: keep the digits and the dots. *)
Definition numeric_char (c : ascii) : bool := is_digit c || Ascii.eqb c "."%char.

Fixpoint keep (f : ascii -> bool) (s : string) : string :=
  match s with
  | EmptyString => EmptyString
  | String c r => if f c then String c (keep f r) else keep f r
  end.

Definition strip_non_numeric (s : string) : string := keep numeric_char s.

(** Longest prefix of digits, and what follows it. *)
Fixpoint span_digits (s : string) : list ascii * string :=
  match s with
  | EmptyString => ([], EmptyString)
  | String c r =>
      if is_digit c then let '(ds, rest) := span_digits r in (c :: ds, rest)
      else ([], s)
  end.

Definition digit_value (c : ascii) : Z := Z.of_nat (nat_of_ascii c) - 48.

Definition digits_value (ds : list ascii) : Z :=
  fold_left (fun acc c => (10 * acc + digit_value c)%Z) ds 0%Z.

Fixpoint pow10 (n : nat) : positive :=
  match n with
  | O => 1%positive
  | S k => (10 * pow10 k)%positive
  end.

(** The exponent part that follows a mantissa: [e] or [E], an optional
    sign, digits. Without digits there is no exponent part. *)
Definition parse_exponent (s : string) : Z :=
  match s with
  | String c r =>
      if Ascii.eqb c "e"%char || Ascii.eqb c "E"%char then
        let '(neg, r1) :=
          match r with
          | String sg r' =>
              if Ascii.eqb sg "-"%char then (true, r')
              else if Ascii.eqb sg "+"%char then (false, r')
              else (false, r)
          | EmptyString => (false, r)
          end in
        let '(es, _) := span_digits r1 in
        match es with
        | [] => 0%Z
        | _ => if neg then (- digits_value es)%Z else digits_value es
        end
      else 0%Z
  | EmptyString => 0%Z
  end.

(** Digits with an optional fraction, or a fraction alone, then an
    optional exponent; [None] when no digit is found. *)
Definition parse_unsigned (s : string) : option Q :=
  let '(ds, r1) := span_digits s in
  let '(fs, r2) :=
    match r1 with
    | String c r' => if Ascii.eqb c "."%char then span_digits r' else ([], r1)
    | EmptyString => ([], r1)
    end in
  match ds, fs with
  | [], [] => None
  | _, _ =>
      Some (Qred ((digits_value (ds ++ fs) # pow10 (length fs))
                  * Qpower (10 # 1) (parse_exponent r2)))
  end.

(** [parseFloat(s)]: leading white space is skipped and the longest
    prefix that is a decimal literal is read; [None] stands for [NaN].
    The literal [Infinity] is left out: it has letters, which no string
    handed to [parseFloat] by this program contains. *)
Definition parseFloat (s : string) : option Q :=
  match trimStart s with
  | String c r =>
      if Ascii.eqb c "-"%char then Qopp <$> parse_unsigned r
      else if Ascii.eqb c "+"%char then parse_unsigned r
      else parse_unsigned (String c r)
  | EmptyString => None
  end.



(** [s.includes(c)] for a one-character [c]. *)
Fixpoint has_char (c : ascii) (s : string) : bool :=
  match s with
  | EmptyString => false
  | String d r => Ascii.eqb d c || has_char c r
  end.


(** The double quote and the line feed. *)
Definition quote : ascii := "034"%char.
Definition newline : ascii := "010"%char.

(** [s.replace] of every double quote by two of them. *)
Fixpoint double_quotes (s : string) : string :=
  match s with
  | EmptyString => EmptyString
  | String c r =>
      if Ascii.eqb c quote then String quote (String quote (double_quotes r))
      else String c (double_quotes r)
  end.

End Str.

(** ** Price parsing *)

Definition parsePrice (priceText : string) : option Q :=
  if Str.is_empty priceText then None
  else
    let cleaned := Str.strip_non_numeric priceText in
    let price := Str.parseFloat cleaned in
    match price with
    | None => None
    | Some p => Some p
    end.

(** ** Outlier detection ([detectOutliers], [App.tsx]) *)

#[global] Instance Qle_dec : RelDecision Qle.
Proof.
  intros x y. destruct (Qle_bool x y) eqn:E.
  - left. now apply Qle_bool_iff.
  - right. intros H. apply Qle_bool_iff in H. congruence.
Defined.

(** [items.filter(...).map(item => ({ link, price }))] *)
Definition priced_links (scraped : list ScrapedItem) : list (string * Q) :=
  omap (fun item => p ← price item; Some (link item, p))
       (List.filter has_price scraped).

Definition detectOutliers (scraped : list ScrapedItem) : gset string :=
  let prices := priced_links scraped in
  if (length prices <? 4)%nat then ∅
  else
    let sortedPrices := merge_sort Qle (map snd prices) in
    let n := inject_Z (Z.of_nat (length sortedPrices)) in
    let q1Index := Z.to_nat (JS.Math_floor (n * (1 # 4))) in
    let q3Index := Z.to_nat (JS.Math_floor (n * (3 # 4))) in
    match sortedPrices !! q1Index, sortedPrices !! q3Index with
    | Some q1, Some q3 =>
        let iqr := q3 - q1 in
        let lowerBound := q1 - 2 * iqr in
        let upperBound := q3 + 2 * iqr in
        fold_left
          (fun outliers '(l, p) =>
             if JS.lt p lowerBound || JS.gt p upperBound
             then outliers ∪ {[ l ]} else outliers)
          prices ∅
    | _, _ => ∅
    end.

(** ** Effects: the network, the clock and thrown errors *)

(** What a caught error exposes: [error.response?.status] and a message. *)
Record Error := mkError {
  response_status : option Z;
  message : string
}.

Inductive Outcome :=
| Response (data : string)
| Failure (e : Error).

Inductive Event :=
| EvGet (url : string)
| EvDelay (ms : Z).

(** The outside world: what the [k]-th request of the run answers for a
    URL, how many requests were issued, and the trace of requests and
    awaited delays. *)
Record World := mkWorld {
  net : nat -> string -> Outcome;
  issued : nat;
  trace : list Event
}.

Inductive Result (A : Type) :=
| Ok (a : A)
| Throw (e : Error)
| OutOfFuel.
Arguments Ok {A} a.
Arguments Throw {A} e.
Arguments OutOfFuel {A}.

Definition M (A : Type) : Type := World -> Result A * World.

Definition ret {A} (a : A) : M A := fun w => (Ok a, w).
Definition throw {A} (e : Error) : M A := fun w => (Throw e, w).
Definition out_of_fuel {A} : M A := fun w => (OutOfFuel, w).

Definition bind {A B} (m : M A) (k : A -> M B) : M B :=
  fun w =>
    match m w with
    | (Ok a, w') => k a w'
    | (Throw e, w') => (Throw e, w')
    | (OutOfFuel, w') => (OutOfFuel, w')
    end.

(** [try { m } catch (error) { handler }] *)
Definition try_catch {A} (m : M A) (handler : Error -> M A) : M A :=
  fun w =>
    match m w with
    | (Throw e, w') => handler e w'
    | r => r
    end.

Notation "'let*' x ':=' m 'in' k" := (bind m (fun x => k))
  (at level 10, x name, m at level 100, k at level 200).

(** A pure step that either throws or returns. *)
Definition lift {A} (r : Error + A) : M A :=
  fun w =>
    match r with
    | inl e => (Throw e, w)
    | inr a => (Ok a, w)
    end.

(** [await axios.get(url, ...)] *)
Definition axios_get (url : string) : M string :=
  fun w =>
    let w' := mkWorld (net w) (S (issued w)) (trace w ++ [EvGet url]) in
    match net w (issued w) url with
    | Response data => (Ok data, w')
    | Failure e => (Throw e, w')
    end.

(** [await delay(ms)] *)
Definition delay (ms : Z) : M unit :=
  fun w => (Ok tt, mkWorld (net w) (issued w) (trace w ++ [EvDelay ms])).

(** ** The fetcher *)

Definition CONCURRENT_REQUESTS : nat := 5.
Definition INITIAL_DELAY : Z := 300.
Definition MAX_RETRIES : nat := 3.

(** [status === n] and [!status] on [number | undefined]. *)
Definition status_is (status : option Z) (n : Z) : bool :=
  match status with
  | Some s => (s =? n)%Z
  | None => false
  end.
Definition status_falsy (status : option Z) : bool :=
  match status with
  | Some s => (s =? 0)%Z
  | None => true
  end.

Definition retryable (status : option Z) : bool :=
  status_is status 429 || status_is status 503 || status_is status 502
  || status_falsy status.

(** The number of retries left only ever counts down from [MAX_RETRIES],
    so it is a natural number; [retries > 0] is the successor case. *)
Fixpoint fetchPageWithRetry (url : string) (retries : nat) (delayMs : Z) : M string :=
  try_catch (axios_get url)
    (fun error =>
       let status := response_status error in
       match retries with
       | S retries' =>
           if retryable status then
             let backoffDelay := (delayMs * 2)%Z in
             let* _ := delay backoffDelay in
             fetchPageWithRetry url retries' backoffDelay
           else throw error
       | O => throw error
       end).

(** ** Markup, as the queries this program issues see it

    [cheerio] is an external library: a parsed document is modelled by the
    answers to the selector queries that the code asks, and the code's own
    logic (fallbacks, trimming, tests) is applied on top of them. *)

(** An element matched by [[data-id^="singeInfoField_"]] or [li.fullRow]. *)
Record FieldElement := mkField {
  first_p_text : string;        (* $el.find('p').first().text() *)
  hasClass_fullRow : bool;      (* $el.hasClass('fullRow') *)
  width75_length : nat;         (* $el.find('p.width-75').length *)
  width75_text : string;        (* $el.find('p.width-75').text() *)
  bold_text : string            (* $el.find('a.bold, span.bold').first().text() *)
}.

Record DetailPage := mkDetailPage {
  post_price_text : string;           (* $('[data-id="post_price"]').text() *)
  post_description_text : string;     (* $('[data-id="postViewDescription"]').text() *)
  info_fields : list FieldElement;    (* $('[data-id^="singeInfoField_"]') *)
  fullRow_items : list FieldElement   (* $('li.fullRow') *)
}.

(** An element matched by [.postListItemData] in the truncated markup. *)
Record ItemElement := mkItemElement {
  first_a_href : option string;       (* $item.find('a').first().attr('href') *)
  parent_a_href : option string;      (* $item.parent('a').attr('href') *)
  closest_a_href : option string;     (* $item.closest('a').attr('href') *)
  heading_text : string;              (* $item.find('h2, h3, .postTitle').text() *)
  item_text : string;                 (* $item.text() *)
  gallery_img_src : option string;    (* ... find('div.image-gallery-image img').first().attr('src') *)
  first_img_src : option string       (* ... find('img').first().attr('src') *)
}.

Record ListingPage := mkListingPage {
  includes_recommended : bool;        (* mainHtml.includes('Recommended Listings') *)
  item_elements : list ItemElement;   (* $filtered('.postListItemData') *)
  pagination_length : nat;            (* $('#pagination').length *)
  nextPageArrow_length : nat;         (* pagination.find('[data-id="nextPageArrow"]').length *)
  nextPageArrow_disabled : bool;      (* nextPageLink.hasClass('disabled') *)
  nextPageArrow_href : option string  (* nextPageLink.attr('href') *)
}.

(** What the run depends on besides the network: the two readings of a
    page (each may throw on malformed input) and [new URL(url)], which
    gives the protocol and the host or throws. *)
Record Env := mkEnv {
  load_detail : string -> Error + DetailPage;
  load_listing : string -> Error + ListingPage;
  parse_URL : string -> Error + (string * string)
}.

(** [x || ''] on [string | undefined]. *)
Definition or_empty (x : option string) : string := default EmptyString x.

(** ** Detail pages ([scrapeItemDetails]) *)

(** The comma-split rule:
    [values.length > 1 ? values : valueText]. *)
Definition split_value (valueText : string) : AttrValue :=
  let values := List.filter Str.truthy (map Str.trim (Str.split "," valueText)) in
  if (1 <? length values)%nat then Multi values else Scalar valueText.

(** [obj[key] = value] on a plain object. Every key becomes an own
    property but [__proto__]: that name is the accessor inherited from
    [Object.prototype], and assigning through it creates no own property
    (it replaces the prototype when the value is an array and does nothing
    when it is a string). The map holds the own properties, which are what
    [JSON.stringify] and [Object.keys] later read. *)
Definition set_property {V} (key : string) (value : V) (obj : gmap string V)
  : gmap string V :=
  if String.eqb key "__proto__" then obj else <[key := value]> obj.

(** The body of the first [each]. *)
Definition first_pass_step (attributes : gmap string AttrValue) (el : FieldElement)
  : gmap string AttrValue :=
  let key := Str.trim (first_p_text el) in
  if hasClass_fullRow el || (0 <? width75_length el)%nat then
    let valueText := Str.trim (width75_text el) in
    if Str.truthy valueText then set_property key (split_value valueText) attributes
    else attributes
  else
    let value := Str.trim (bold_text el) in
    if Str.truthy key && Str.truthy value then set_property key (Scalar value) attributes
    else attributes.

(** The body of the second [each], over [li.fullRow]. *)
Definition second_pass_step (attributes : gmap string AttrValue) (el : FieldElement)
  : gmap string AttrValue :=
  let key := Str.trim (first_p_text el) in
  let valueText := Str.trim (width75_text el) in
  if Str.truthy key && Str.truthy valueText && negb (String.eqb key "VIN Number") then
    set_property key (split_value valueText) attributes
  else attributes.

Definition first_pass (page : DetailPage) : gmap string AttrValue :=
  fold_left first_pass_step (info_fields page) ∅.

Definition second_pass (page : DetailPage) (attributes : gmap string AttrValue)
  : gmap string AttrValue :=
  fold_left second_pass_step (fullRow_items page) attributes.

(** The fields that [scrapeItemDetails] always sets of its
    [Partial<ScrapedItem>]. *)
Record Details := mkDetails {
  d_price : option Q;
  d_priceText : string;
  d_description : string;
  d_attributes : gmap string AttrValue
}.

Definition empty_details : Details := mkDetails None "" "" ∅.

Definition extract_details (page : DetailPage) : Details :=
  let priceText := Str.trim (post_price_text page) in
  let price := parsePrice priceText in
  let description := Str.trim (post_description_text page) in
  let attributes := second_pass page (first_pass page) in
  mkDetails price priceText description attributes.

Definition scrapeItemDetails (env : Env) (url : string) : M Details :=
  try_catch
    (let* html := fetchPageWithRetry url MAX_RETRIES INITIAL_DELAY in
     let* page := lift (load_detail env html) in
     ret (extract_details page))
    (fun error => ret empty_details).

(** ** Result pages ([extractListingsFromPage]) *)

Record ListingItem := mkListing {
  l_link : string;
  l_title : string;
  l_image : string
}.

Record PageExtractionResult := mkExtraction {
  listings : list ListingItem;
  hasRecommendedListings : bool;
  nextPageUrl : option string
}.

(** The body of [itemElements.each]: [None] when nothing is pushed. *)
Definition extract_item (baseUrl : string) (el : ItemElement) : option ListingItem :=
  let link := or_empty (first_a_href el) in
  let link := if Str.is_empty link then or_empty (parent_a_href el) else link in
  let link := if Str.is_empty link then or_empty (closest_a_href el) else link in
  let link :=
    if Str.truthy link && negb (Str.startsWith "http" link)
    then baseUrl +:+ link else link in
  let title :=
    let t := Str.trim (heading_text el) in
    if Str.truthy t then t else Str.substring0 100 (Str.trim (item_text el)) in
  let image := or_empty (gallery_img_src el) in
  let image := if Str.is_empty image then or_empty (first_img_src el) else image in
  if Str.truthy link then Some (mkListing link title image) else None.

Definition next_page_url (baseUrl : string) (page : ListingPage) : option string :=
  if (0 <? pagination_length page)%nat then
    if (0 <? nextPageArrow_length page)%nat && negb (nextPageArrow_disabled page) then
      match nextPageArrow_href page with
      | Some href =>
          if Str.truthy href
          then Some (if Str.startsWith "http" href then href else baseUrl +:+ href)
          else None
      | None => None
      end
    else None
  else None.

Definition extractListingsFromPage (page : ListingPage) (baseUrl : string)
  : PageExtractionResult :=
  mkExtraction (omap (extract_item baseUrl) (item_elements page))
               (includes_recommended page)
               (next_page_url baseUrl page).

(** ** Batches ([processInBatches]) *)

(** [await Promise.all(batch.map((item, batchIndex) => processor(item, i + batchIndex)))];
    the workers of a batch are run one after the other, in index order. *)
Fixpoint Promise_all {T R} (processor : T -> nat -> M R) (i : nat) (batch : list T)
  : M (list R) :=
  match batch with
  | [] => ret []
  | item :: rest =>
      let* r := processor item i in
      let* rs := Promise_all processor (S i) rest in
      ret (r :: rs)
  end.

(** The [for] loop, from index [i] with [results] collected so far. *)
Fixpoint batches_from {T R} (fuel : nat) (todo : list T) (processor : T -> nat -> M R)
    (concurrency : nat) (delayBetweenBatches : Z) (i : nat) (results : list R)
  : M (list R) :=
  match fuel with
  | O => out_of_fuel
  | S fuel' =>
      if (i <? length todo)%nat then
        let batch := take concurrency (drop i todo) in
        let* batchResults := Promise_all processor i batch in
        let results := results ++ batchResults in
        let* _ := if (i + concurrency <? length todo)%nat
                  then delay delayBetweenBatches else ret tt in
        batches_from fuel' todo processor concurrency delayBetweenBatches
                     (i + concurrency) results
      else ret results
  end.

Definition processInBatches {T R} (fuel : nat) (todo : list T)
    (processor : T -> nat -> M R) (concurrency : nat) (delayBetweenBatches : Z)
  : M (list R) :=
  batches_from fuel todo processor concurrency delayBetweenBatches 0 [].

(** ** The run ([scrapeOpenSooq]) *)


(** The [for] loop that adds the unseen listings of a page. *)
Definition add_unique (st : gset string * list ListingItem) (listing : ListingItem)
  : gset string * list ListingItem :=
  let '(seenLinks, allListings) := st in
  if decide (l_link listing ∈ seenLinks) then st
  else (seenLinks ∪ {[ l_link listing ]}, allListings ++ [listing]).

Definition url_truthy (u : option string) : bool :=
  match u with
  | Some s => Str.truthy s
  | None => false
  end.

(** The [while (currentPageUrl)] loop. *)
Fixpoint crawl (env : Env) (fuel : nat) (baseUrl : string)
    (currentPageUrl : option string)
    (seenLinks : gset string) (allListings : list ListingItem)
  : M (list ListingItem) :=
  match fuel with
  | O => out_of_fuel
  | S fuel' =>
      match currentPageUrl with
      | Some pageUrl =>
          if Str.truthy pageUrl then
            let* html := fetchPageWithRetry pageUrl MAX_RETRIES INITIAL_DELAY in
            let* page := lift (load_listing env html) in
            let extraction := extractListingsFromPage page baseUrl in
            let '(seenLinks, allListings) :=
              fold_left add_unique (listings extraction) (seenLinks, allListings) in
            if hasRecommendedListings extraction then ret allListings
            else
              let currentPageUrl := nextPageUrl extraction in
              let* _ := if url_truthy currentPageUrl then delay 500 else ret tt in
              crawl env fuel' baseUrl currentPageUrl seenLinks allListings
          else ret allListings
      | None => ret allListings
      end
  end.

(** The worker of one listing; [details.price ?? null] and the like leave
    the fields that [scrapeItemDetails] has set as they are. *)
Definition scrape_listing (env : Env) (listing : ListingItem) (index : nat)
  : M ScrapedItem :=
  let* details := scrapeItemDetails env (l_link listing) in
  ret (mkItem (l_link listing) (l_title listing) (l_image listing)
              (d_price details) (d_priceText details) (d_description details)
              (d_attributes details)).


(** ** The HTTP route ([router.post('/scrape', ...)]) *)




(** ** The front end ([App.tsx], [Filters.tsx]) *)


(** The state update of [handleToggleExclude]. *)
Definition handleToggleExclude (l : string) (prev : gset string) : gset string :=
  if decide (l ∈ prev) then prev ∖ {[ l ]} else prev ∪ {[ l ]}.







(** The escaping of one value of a row in [handleExportCSV]. *)
Definition csv_escape (val : string) : string :=
  if Str.has_char ","%char val || Str.has_char Str.quote val
     || Str.has_char Str.newline val
  then String Str.quote (Str.double_quotes val +:+ String Str.quote EmptyString)
  else val.

(** * Specification vocabulary *)

(** Specification side: an item is retained when it carries a strictly
    positive price; the mean of a list of numbers. *)
Definition priced (item : ScrapedItem) : Prop :=
  exists p, price item = Some p /\ 0 < p.

#[global] Instance priced_dec (item : ScrapedItem) : Decision (priced item).
Proof.
  unfold priced. destruct (price item) as [p|].
  - destruct (Qlt_le_dec 0 p) as [Hp|Hp].
    + left. exists p. split; [reflexivity | exact Hp].
    + right. intros (q & Hq & Hlt). injection Hq as <-.
      exact (Qle_not_lt _ _ Hp Hlt).
  - right. intros (q & Hq & _). discriminate Hq.
Defined.





Definition priced_item (l t : string) (p : Q) : ScrapedItem :=
  mkItem l t "" (Some p) "" "" ∅.





(** Specification side: the prices of the positive-priced items, and the
    closed interval of the prices that are not outliers. *)
Definition positive_prices (scraped : list ScrapedItem) : list Q :=
  omap price (filter priced scraped).

Definition within (lo hi p : Q) : Prop := lo <= p /\ p <= hi.

#[global] Instance Qle_total : Total Qle.
Proof.
  intros x y. destruct (Qlt_le_dec x y) as [H|H];
    [left; now apply Qlt_le_weak | now right].
Qed.

#[global] Instance Qle_transitive : Transitive Qle.
Proof. intros x y z. apply Qle_trans. Qed.

#[global] Instance Qlt_dec : RelDecision Qlt.
Proof.
  intros x y. destruct (Qlt_le_dec x y) as [H|H]; [now left|right].
  now apply Qle_not_lt.
Defined.

Definition link_price (item : ScrapedItem) : option (string * Q) :=
  p ← price item; Some (link item, p).

(** [l] is the identity of a positive-priced item whose price satisfies [P]. *)
Definition flagged_by (scraped : list ScrapedItem) (P : Q -> Prop) (l : string) : Prop :=
  exists item p,
    item ∈ scraped /\ priced item /\ link item = l /\ price item = Some p /\ P p.

(** How many elements of [l] are below [x], and how many are at most [x]. *)
Definition count_lt (x : Q) (l : list Q) : nat := length (filter (fun p => p < x) l).
Definition count_le (x : Q) (l : list Q) : nat := length (filter (fun p => p <= x) l).

Definition after_get (url : string) (w : World) : World :=
  mkWorld (net w) (S (issued w)) (trace w ++ [EvGet url]).
Definition after_delay (ms : Z) (w : World) : World :=
  mkWorld (net w) (issued w) (trace w ++ [EvDelay ms]).

(** Specification side: when a failed attempt is to be followed by another. *)
Definition should_retry (retries : nat) (status : option Z) : Prop :=
  (0 < retries)%nat /\
  (status = None \/ status = Some 429%Z \/ status = Some 502%Z \/ status = Some 503%Z).

(** The events of [m] retries after a first attempt made with [delayMs]. *)
Fixpoint backoff_events (url : string) (m : nat) (delayMs : Z) : list Event :=
  match m with
  | O => []
  | S m' => EvDelay (2 * delayMs) :: EvGet url :: backoff_events url m' (2 * delayMs)
  end.

Definition delays (evs : list Event) : list Z :=
  omap (fun ev => match ev with EvDelay ms => Some ms | EvGet _ => None end) evs.

Definition label (el : FieldElement) : string := Str.trim (first_p_text el).
Definition wide_value (el : FieldElement) : string := Str.trim (width75_text el).

(** Specification side: the full-row items from which the second pass
    writes an attribute. *)
Definition second_pass_writes (el : FieldElement) : Prop :=
  label el <> EmptyString /\ wide_value el <> EmptyString /\
  label el <> "VIN Number"%string /\ label el <> "__proto__"%string.

(** What [scrapeItemDetails] returns, from the result of its fetch. *)
Definition details_of (env : Env) (fetched : Result string) : Details :=
  match fetched with
  | Ok html =>
      match load_detail env html with
      | inr page => extract_details page
      | inl _ => empty_details
      end
  | _ => empty_details
  end.

#[global] Instance second_pass_writes_dec (el : FieldElement) :
  Decision (second_pass_writes el).
Proof. unfold second_pass_writes. apply _. Defined.


(** * Sample inputs *)


(** Four ordinary prices, an extreme one, and two items without a
    positive price. *)
Definition spread_items : list ScrapedItem :=
  [ priced_item "/a" "A" 1000; priced_item "/b" "B" 1200;
    mkItem "/x" "X" "" None "" "" ∅;
    priced_item "/c" "C" 1100; priced_item "/d" "D" 110000;
    priced_item "/y" "Y" 0; priced_item "/e" "E" 1300 ].

Definition flat_items : list ScrapedItem :=
  [ priced_item "/a" "A" 5; priced_item "/b" "B" 5; priced_item "/c" "C" 9;
    priced_item "/d" "D" 5; priced_item "/e" "E" 5 ].

(** A network on which every request fails with the given status. *)
Definition always_failing (status : option Z) : World :=
  mkWorld (fun _ _ => Failure (mkError status "failed")) 0 [].

(** A network that answers the [k]-th request by the [k]-th outcome of a
    script, and by a plain page afterwards. *)
Definition scripted (script : list Outcome) : World :=
  mkWorld (fun k _ => default (Response "<html></html>") (script !! k)) 0 [].

Definition bad_detail_env : Env :=
  mkEnv (fun _ => inl (mkError None "malformed markup"))
        (fun _ => inl (mkError None "malformed markup"))
        (fun _ => inl (mkError None "Invalid URL")).



(** A small site: two result pages that share the listing [/b], the second
    one ending the results, and three detail pages. *)
Definition sample_page1 : ListingPage :=
  mkListingPage false
    [ mkItemElement (Some "/a") None None " Jeep Wrangler 2018 " "" None (Some "a.jpg");
      mkItemElement None (Some "https://jo.opensooq.com/b") None "" "Jeep 2020"
                    (Some "b.jpg") None ]
    1 1 false (Some "/en/cars?page=2").

Definition sample_page2 : ListingPage :=
  mkListingPage true
    [ mkItemElement (Some "/b") None None "Jeep 2020" "" None None;
      mkItemElement None None (Some "/c") "Jeep 2021" "" None None;
      mkItemElement None None None "No link" "" None None ]
    1 1 false (Some "/en/cars?page=3").

Definition sample_env : Env :=
  mkEnv
    (fun html => inr (mkDetailPage html "" [] []))
    (fun html =>
       if String.eqb html "page 1" then inr sample_page1
       else if String.eqb html "page 2" then inr sample_page2
       else inl (mkError None "not a result page"))
    (fun _ => inr ("https:", "jo.opensooq.com")%string).

(** The site, given the price texts of its three detail pages. *)
Definition sample_site (pa pb pc : string) (url : string) : Outcome :=
  if String.eqb url "https://jo.opensooq.com/en/cars" then Response "page 1"
  else if String.eqb url "https://jo.opensooq.com/en/cars?page=2" then Response "page 2"
  else if String.eqb url "https://jo.opensooq.com/a" then Response pa
  else if String.eqb url "https://jo.opensooq.com/b" then Response pb
  else if String.eqb url "https://jo.opensooq.com/c" then Response pc
  else Failure (mkError (Some 404%Z) "Not Found").

Definition sample_world : World :=
  mkWorld (fun _ => sample_site "10 JOD" "20 JOD" "30 JOD") 0 [].





(** * Further vocabulary and sample inputs *)

(** What the [k]-th request made from the world [w] answers for [url]. *)
Definition outcome_at (w : World) (url : string) (k : nat) : Outcome :=
  net w (issued w + k) url.

(** The first [k] requests made from [w] all fail in a way that is retried. *)
Definition retried_through (w : World) (url : string) (k : nat) : Prop :=
  forall j, (j < k)%nat ->
    exists e, outcome_at w url j = Failure e /\ retryable (response_status e) = true.

(** The world after [n] further awaited delays of [ms]. *)
Definition after_delays (n : nat) (ms : Z) (w : World) : World :=
  mkWorld (net w) (issued w) (trace w ++ replicate n (EvDelay ms)).

(** An absolute URL, as the code tests it. *)
Definition absolute (u : string) : Prop := Str.startsWith "http" u = true.




(** An attribute value as the two passes write it: a non-empty text, or at
    least two non-empty texts. *)
Definition well_formed_value (v : AttrValue) : Prop :=
  match v with
  | Scalar t => t <> EmptyString
  | Multi l => (2 <= length l)%nat /\ Forall (fun t => t <> EmptyString) l
  end.

(** A field that the first pass reads as a full row. *)
Definition full_row (el : FieldElement) : Prop :=
  hasClass_fullRow el = true \/ (0 < width75_length el)%nat.

(** A detail page with a full-row field that has no label. *)
Definition unlabelled_page : DetailPage :=
  mkDetailPage "9,500 JOD" ""
    [ mkField "  " true 1 "Leather, Sunroof" "" ]
    [].






(** Specification side: how a reader of comma-separated values reads one
    field. Inside quotes, two quotes stand for one and a single quote ends
    the field; a field that does not start with a quote is taken as it is. *)
Fixpoint read_quoted (s : string) : string :=
  match s with
  | EmptyString => EmptyString
  | String c r =>
      if Ascii.eqb c Str.quote then
        match r with
        | String d r' =>
            if Ascii.eqb d Str.quote then String Str.quote (read_quoted r')
            else EmptyString
        | EmptyString => EmptyString
        end
      else String c (read_quoted r)
  end.

Definition csv_unescape (field : string) : string :=
  match field with
  | String c r => if Ascii.eqb c Str.quote then read_quoted r else field
  | EmptyString => EmptyString
  end.

(** * Properties *)

(** ** Numbers *)

Section Numbers.

Lemma gt_iff (a b : Q) : JS.gt a b = true <-> b < a.
Proof.
  unfold JS.gt. rewrite negb_true_iff. split.
  - intros H. apply Qnot_le_lt. intros Hle.
    apply Qle_bool_iff in Hle. congruence.
  - intros H. destruct (Qle_bool a b) eqn:E; [|reflexivity].
    apply Qle_bool_iff in E. exfalso. exact (Qlt_not_le _ _ H E).
Qed.

Lemma lt_iff (a b : Q) : JS.lt a b = true <-> a < b.
Proof. exact (gt_iff b a). Qed.

















End Numbers.

(** ** Aggregation *)

Section Aggregation.

Lemma has_price_priced (item : ScrapedItem) :
  has_price item = true <-> priced item.
Proof.
  unfold has_price, priced. destruct (price item) as [p|].
  - rewrite gt_iff. split.
    + intros H. exists p. now split.
    + intros (q & Hq & H). now injection Hq as ->.
  - split; [discriminate|]. intros (q & Hq & _). discriminate.
Qed.

Lemma filter_has_price (l : list ScrapedItem) :
  List.filter has_price l = filter priced l.
Proof.
  induction l as [|x l IH]; [reflexivity|].
  simpl. rewrite filter_cons, IH.
  destruct (has_price x) eqn:E, (decide (priced x)) as [H|H]; try reflexivity.
  - exfalso. apply H. now apply has_price_priced.
  - apply has_price_priced in H. congruence.
Qed.





End Aggregation.






(** ** Price parsing *)

Section Parsing.









End Parsing.


(** ** Outlier detection *)

Section Outliers.

Lemma priced_links_filter (l : list ScrapedItem) :
  priced_links l = omap link_price (filter priced l).
Proof. unfold priced_links. now rewrite filter_has_price. Qed.

Lemma priced_links_prices (l : list ScrapedItem) :
  map snd (priced_links l) = positive_prices l.
Proof.
  rewrite priced_links_filter. unfold positive_prices.
  induction (filter priced l) as [|x xs IH]; [reflexivity|].
  simpl. unfold link_price at 1.
  destruct (price x); simpl; [f_equal|]; exact IH.
Qed.


Lemma elem_of_priced_links (l : list ScrapedItem) (lk : string) (p : Q) :
  (lk, p) ∈ priced_links l <->
  exists item, item ∈ l /\ priced item /\ link item = lk /\ price item = Some p.
Proof.
  rewrite priced_links_filter, list_elem_of_omap. split.
  - intros (item & Hin & Hlp). apply list_elem_of_filter in Hin as [Hp Hin].
    exists item. unfold link_price in Hlp.
    destruct (price item) as [q|]; [|discriminate]. simpl in Hlp.
    injection Hlp as <- <-. auto.
  - intros (item & Hin & Hp & <- & Hprice). exists item. split.
    + apply list_elem_of_filter. auto.
    + unfold link_price. now rewrite Hprice.
Qed.

Lemma elem_of_flag_loop (flag : Q -> bool) (prices : list (string * Q))
    (init : gset string) (l : string) :
  l ∈ fold_left
        (fun outliers '(lk, p) => if flag p then outliers ∪ {[ lk ]} else outliers)
        prices init
  <-> l ∈ init \/ exists p, (l, p) ∈ prices /\ flag p = true.
Proof.
  revert init. induction prices as [|[lk q] prices IH]; intros init; simpl.
  - split; [auto|]. intros [H|(p & H & _)]; [exact H|]. inversion H.
  - rewrite IH. split.
    + intros [H|(p & Hin & Hp)].
      * destruct (flag q) eqn:E; [|now left].
        apply elem_of_union in H as [H|H]; [now left|].
        apply elem_of_singleton in H as ->. right. exists q.
        split; [left | exact E].
      * right. exists p. split; [now right | exact Hp].
    + intros [H|(p & Hin & Hp)].
      * left. destruct (flag q); [|exact H]. apply elem_of_union. now left.
      * apply elem_of_cons in Hin as [Heq|Hin].
        -- injection Heq as -> ->. rewrite Hp. left.
           apply elem_of_union. right. now apply elem_of_singleton.
        -- right. exists p. now split.
Qed.

Lemma outside_iff (lo hi p : Q) :
  JS.lt p lo || JS.gt p hi = true <-> ~ within lo hi p.
Proof.
  rewrite orb_true_iff, lt_iff, gt_iff. unfold within. split.
  - intros [H|H] [H1 H2]; lra.
  - intros H. destruct (Qlt_le_dec p lo) as [|Hlo]; [now left|].
    destruct (Qlt_le_dec hi p) as [|Hhi]; [now right|].
    exfalso. apply H. now split.
Qed.

Lemma q1Index_eq (n : nat) :
  Z.to_nat (JS.Math_floor (inject_Z (Z.of_nat n) * (1 # 4))) = (n / 4)%nat.
Proof.
  unfold JS.Math_floor, Qfloor, Qmult, inject_Z. cbn [Qnum Qden].
  change (Z.pos (1 * 4)) with (Z.of_nat 4).
  rewrite Z.mul_1_r, <- Nat2Z.inj_div. apply Nat2Z.id.
Qed.

Lemma q3Index_eq (n : nat) :
  Z.to_nat (JS.Math_floor (inject_Z (Z.of_nat n) * (3 # 4))) = (3 * n / 4)%nat.
Proof.
  unfold JS.Math_floor, Qfloor, Qmult, inject_Z. cbn [Qnum Qden].
  change (Z.pos (1 * 4)) with (Z.of_nat 4). change 3%Z with (Z.of_nat 3).
  rewrite <- Nat2Z.inj_mul, <- Nat2Z.inj_div, (Nat.mul_comm n 3). apply Nat2Z.id.
Qed.

(** [detectOutliers] over the sorted prices that the code computes. *)
Lemma detectOutliers_unfold (scraped : list ScrapedItem) :
  let ps := positive_prices scraped in
  let n := length ps in
  let sorted := merge_sort Qle ps in
  (4 <= n)%nat ->
  exists q1 q3,
    sorted !! (n / 4)%nat = Some q1 /\ sorted !! (3 * n / 4)%nat = Some q3 /\
    forall l, l ∈ detectOutliers scraped <->
              flagged_by scraped
                (fun p => ~ within (q1 - 2 * (q3 - q1)) (q3 + 2 * (q3 - q1)) p) l.
Proof.
  intros ps n sorted Hn. unfold detectOutliers.
  assert (Hlen : length (priced_links scraped) = n).
  { subst n ps. now rewrite <- priced_links_prices, length_map. }
  rewrite Hlen. replace (n <? 4)%nat with false by (symmetry; apply Nat.ltb_ge; lia).
  rewrite priced_links_prices. fold ps. fold sorted.
  assert (Hslen : length sorted = n).
  { subst sorted n. apply Permutation_length, merge_sort_Permutation. }
  rewrite Hslen, q1Index_eq, q3Index_eq.
  destruct (lookup_lt_is_Some_2 sorted (n / 4)%nat) as [q1 Hq1].
  { rewrite Hslen. apply Nat.Div0.div_lt_upper_bound. lia. }
  destruct (lookup_lt_is_Some_2 sorted (3 * n / 4)%nat) as [q3 Hq3].
  { rewrite Hslen. apply Nat.Div0.div_lt_upper_bound. lia. }
  rewrite Hq1, Hq3. exists q1, q3. split; [reflexivity|]. split; [reflexivity|].
  intros l. rewrite elem_of_flag_loop. unfold flagged_by. split.
  - intros [H|(p & Hin & Hflag)]; [now apply not_elem_of_empty in H|].
    apply elem_of_priced_links in Hin as (item & Hin & Hp & Hl & Hprice).
    exists item, p. repeat split; try assumption. now apply outside_iff.
  - intros (item & p & Hin & Hp & Hl & Hprice & Hout). right. exists p. split.
    + apply elem_of_priced_links. exists item. auto.
    + now apply outside_iff.
Qed.

Lemma detectOutliers_small (scraped : list ScrapedItem) :
  (length (positive_prices scraped) < 4)%nat -> detectOutliers scraped = ∅.
Proof.
  intros H. unfold detectOutliers.
  rewrite <- priced_links_prices, length_map in H.
  apply Nat.ltb_lt in H. now rewrite H.
Qed.

End Outliers.



(** The extreme price of [spread_items] is the only one flagged. *)
Example detectOutliers_spread : detectOutliers spread_items = {[ "/d"%string ]}.
Proof. vm_compute. reflexivity. Qed.

Section Quantiles.

Lemma count_lt_none (x : Q) (l : list Q) :
  Forall (Qle x) l -> count_lt x l = 0%nat.
Proof.
  unfold count_lt. induction 1 as [|a l Ha _ IH]; [reflexivity|].
  rewrite filter_cons. destruct (decide (a < x)) as [Hlt|_]; [|exact IH].
  exfalso. exact (Qle_not_lt _ _ Ha Hlt).
Qed.

Lemma count_lt_cons (x a : Q) (l : list Q) :
  (count_lt x (a :: l) <= S (count_lt x l))%nat.
Proof.
  unfold count_lt. rewrite filter_cons. destruct (decide (a < x)); simpl; lia.
Qed.

Lemma count_le_cons (x a : Q) (l : list Q) :
  a <= x -> count_le x (a :: l) = S (count_le x l).
Proof.
  intros H. unfold count_le. rewrite filter_cons.
  destruct (decide (a <= x)); [reflexivity|contradiction].
Qed.

(** In a sorted list the element at index [k] has at most [k] elements
    below it and more than [k] elements at most equal to it. *)
Lemma sorted_lookup_counts (s : list Q) (k : nat) (x : Q) :
  StronglySorted Qle s -> s !! k = Some x ->
  (count_lt x s <= k)%nat /\ (k < count_le x s)%nat.
Proof.
  intros Hs. revert k. induction Hs as [|a s Hs IH Ha]; intros k Hk.
  - discriminate Hk.
  - destruct k as [|k]; simpl in Hk.
    + injection Hk as ->. split.
      * pose proof (count_lt_none x s Ha) as H0.
        unfold count_lt in *. rewrite filter_cons.
        destruct (decide (x < x)) as [Hxx|_]; [|rewrite H0; lia].
        exfalso. exact (Qlt_irrefl _ Hxx).
      * rewrite count_le_cons by apply Qle_refl. lia.
    + destruct (IH k Hk) as [H1 H2].
      assert (Hax : a <= x).
      { rewrite Forall_forall in Ha. apply Ha.
        apply list_elem_of_lookup. eauto. }
      split.
      * pose proof (count_lt_cons x a s). lia.
      * rewrite count_le_cons by exact Hax. lia.
Qed.

Lemma filter_length_le {A} (P R : A -> Prop)
    `{!forall x, Decision (P x)} `{!forall x, Decision (R x)} (l : list A) :
  (forall x, P x -> R x) -> (length (filter P l) <= length (filter R l))%nat.
Proof.
  intros HPR. induction l as [|a l IH]; [reflexivity|].
  rewrite !filter_cons.
  destruct (decide (P a)) as [HP|_], (decide (R a)) as [|HR]; simpl; try lia.
  exfalso. apply HR, HPR, HP.
Qed.

Lemma count_le_lt (x y : Q) (l : list Q) :
  x < y -> (count_le x l <= count_lt y l)%nat.
Proof.
  intros Hxy. apply filter_length_le. intros p Hp.
  eapply Qle_lt_trans; eassumption.
Qed.

(** Two ascending arrangements of the same prices agree at every index. *)
Lemma sorted_lookup_unique (s1 s2 : list Q) (k : nat) (x y : Q) :
  Sorted Qle s1 -> Sorted Qle s2 -> s1 ≡ₚ s2 ->
  s1 !! k = Some x -> s2 !! k = Some y -> x == y.
Proof.
  intros Hs1 Hs2 Hperm Hx Hy.
  apply Sorted_StronglySorted in Hs1; [|apply Qle_transitive].
  apply Sorted_StronglySorted in Hs2; [|apply Qle_transitive].
  destruct (sorted_lookup_counts s1 k x Hs1 Hx) as [Hx1 Hx2].
  destruct (sorted_lookup_counts s2 k y Hs2 Hy) as [Hy1 Hy2].
  assert (Hlt : forall z, count_lt z s1 = count_lt z s2).
  { intros z. unfold count_lt. now rewrite Hperm. }
  assert (Hle : forall z, count_le z s1 = count_le z s2).
  { intros z. unfold count_le. now rewrite Hperm. }
  destruct (Q_dec x y) as [[Hxy|Hyx]|Heq]; [| |exact Heq].
  - pose proof (count_le_lt x y s2 Hxy). rewrite Hle in Hx2. lia.
  - pose proof (count_le_lt y x s1 Hyx). rewrite <- Hle in Hy2. lia.
Qed.

End Quantiles.

(** C10. With at least 4 positive-priced items whose ascending prices at
    indices [n / 4] and [3 * n / 4] are the same value [q], the flagged
    identities are exactly those of the positive-priced items whose price
    differs from [q]; with all prices equal nothing is flagged. *)
Theorem detectOutliers_zero_iqr (scraped : list ScrapedItem) (sorted : list Q) (q : Q) :
  let ps := positive_prices scraped in
  let n := length ps in
  (4 <= n)%nat ->
  sorted ≡ₚ ps -> Sorted Qle sorted ->
  (exists q1 q3,
     sorted !! (n / 4)%nat = Some q1 /\ sorted !! (3 * n / 4)%nat = Some q3 /\
     q1 == q /\ q3 == q) ->
  (forall l, l ∈ detectOutliers scraped <->
             flagged_by scraped (fun p => ~ p == q) l) /\
  ((forall p, In p ps -> p == q) -> detectOutliers scraped = ∅).
Proof.
  intros ps n Hn Hperm Hsorted (q1 & q3 & Hq1 & Hq3 & E1 & E3).
  destruct (detectOutliers_unfold scraped Hn) as (c1 & c3 & Hc1 & Hc3 & Hflag).
  fold ps in Hc1, Hc3. fold n in Hc1, Hc3.
  assert (Hms : merge_sort Qle ps ≡ₚ sorted).
  { rewrite Hperm. apply merge_sort_Permutation. }
  pose proof (Sorted_merge_sort Qle ps) as Hss.
  pose proof (sorted_lookup_unique _ _ _ _ _ Hss Hsorted Hms Hc1 Hq1) as F1.
  pose proof (sorted_lookup_unique _ _ _ _ _ Hss Hsorted Hms Hc3 Hq3) as F3.
  assert (Hiff : forall l, l ∈ detectOutliers scraped <->
                           flagged_by scraped (fun p => ~ p == q) l).
  { intros l. rewrite Hflag. unfold flagged_by, within.
    split; intros (item & p & Hin & Hp & Hl & Hprice & Hout);
      exists item, p; repeat split; try assumption; intros H; apply Hout; lra. }
  split; [exact Hiff|].
  intros Hall. apply elem_of_equiv_empty_L. intros l Hl.
  apply Hiff in Hl as (item & p & Hin & Hp & _ & Hprice & Hne).
  apply Hne, Hall. unfold ps, positive_prices.
  apply list_elem_of_In, list_elem_of_omap. exists item. split; [|exact Hprice].
  apply list_elem_of_filter. auto.
Qed.

Lemma detectOutliers_zero_iqr_witness :
  "/c"%string ∈ detectOutliers flat_items /\
  "/a"%string ∉ detectOutliers flat_items.
Proof.
  assert (Hiff : forall l, l ∈ detectOutliers flat_items <->
                           flagged_by flat_items (fun p => ~ p == 5) l).
  { apply (detectOutliers_zero_iqr flat_items [5; 5; 5; 5; 9] 5).
    - vm_compute. lia.
    - vm_compute. do 2 apply perm_skip.
      etransitivity; [apply perm_skip, perm_swap | apply perm_swap].
    - repeat constructor; apply Qle_bool_iff; reflexivity.
    - exists 5, 5. vm_compute. repeat split; reflexivity. }
  split.
  - apply Hiff. exists (priced_item "/c" "C" 9), 9. repeat split.
    + apply list_elem_of_In. simpl. auto.
    + exists 9. split; reflexivity.
    + intros H. discriminate H.
  - intros H. apply Hiff in H as (item & p & Hin & _ & Hl & Hp & Hne).
    apply list_elem_of_In in Hin. simpl in Hin.
    destruct Hin as [<-|[<-|[<-|[<-|[<-|[]]]]]]; try discriminate Hl.
    injection Hp as <-. apply Hne. reflexivity.
Defined.

(** ** The fetcher *)

Section Fetcher.

Lemma fetch_step (url : string) (retries : nat) (delayMs : Z) (w : World) :
  fetchPageWithRetry url retries delayMs w =
    match net w (issued w) url with
    | Response data => (Ok data, after_get url w)
    | Failure e =>
        match retries with
        | S retries' =>
            if retryable (response_status e)
            then fetchPageWithRetry url retries' (delayMs * 2)
                   (after_delay (delayMs * 2) (after_get url w))
            else (Throw e, after_get url w)
        | O => (Throw e, after_get url w)
        end
    end.
Proof.
  destruct retries; simpl; unfold try_catch, axios_get;
    destruct (net w (issued w) url) as [data|e]; try reflexivity.
  destruct (retryable (response_status e)); reflexivity.
Qed.

Lemma retryable_iff (status : option Z) :
  retryable status = true <->
  status = None \/ status = Some 429%Z \/ status = Some 502%Z \/
  status = Some 503%Z \/ status = Some 0%Z.
Proof.
  unfold retryable, status_is, status_falsy. destruct status as [s|].
  - rewrite !orb_true_iff, !Z.eqb_eq. split.
    + intros [[[->| ->]| ->]| ->]; auto 6.
    + intros [H|[H|[H|[H|H]]]]; try discriminate; injection H as ->; auto.
  - simpl. split; auto.
Qed.

Lemma should_retry_iff (retries' : nat) (status : option Z) :
  status <> Some 0%Z ->
  retryable status = true <-> should_retry (S retries') status.
Proof.
  intros H0. rewrite retryable_iff. unfold should_retry. split.
  - intros [H|[H|[H|[H|H]]]]; try contradiction; split; auto; lia.
  - intros [_ [H|[H|[H|H]]]]; auto 6.
Qed.

(** At least one attempt and at most one more than the retries. *)
Lemma fetch_attempts (url : string) (retries : nat) (delayMs : Z) (w : World) :
  (S (issued w) <= issued (snd (fetchPageWithRetry url retries delayMs w))
   <= issued w + S retries)%nat.
Proof.
  revert delayMs w. induction retries as [|r IH]; intros d w;
    rewrite fetch_step; destruct (net w (issued w) url) as [?|e]; simpl; try lia.
  destruct (retryable _); simpl; [|lia].
  specialize (IH (d * 2)%Z (after_delay (d * 2) (after_get url w))).
  simpl in IH. lia.
Qed.

(** The fetcher itself never runs out of fuel: it has none. *)
Lemma fetch_returns (url : string) (retries : nat) (delayMs : Z) (w : World) :
  fst (fetchPageWithRetry url retries delayMs w) <> OutOfFuel.
Proof.
  revert delayMs w. induction retries as [|r IH]; intros d w;
    rewrite fetch_step; destruct (net w (issued w) url) as [?|e]; try discriminate.
  destruct (retryable _); [apply IH | discriminate].
Qed.

(** The trace of a fetch: a request, then a delay and a request per retry,
    each delay twice the previous one. *)
Lemma fetch_trace (url : string) (retries : nat) (delayMs : Z) (w : World) :
  let w' := snd (fetchPageWithRetry url retries delayMs w) in
  exists m, (m <= retries)%nat /\
            issued w' = (issued w + S m)%nat /\
            trace w' = trace w ++ EvGet url :: backoff_events url m delayMs.
Proof.
  revert delayMs w. induction retries as [|r IH]; intros d w; cbv zeta;
    rewrite fetch_step; destruct (net w (issued w) url) as [?|e];
    try (exists 0%nat; simpl; repeat split; try lia; reflexivity).
  destruct (retryable _);
    [|exists 0%nat; simpl; repeat split; try lia; reflexivity].
  destruct (IH (d * 2)%Z (after_delay (d * 2) (after_get url w)))
    as (m & Hm & Hi & Ht).
  exists (S m). split; [lia|]. split; [rewrite Hi; simpl; lia|].
  rewrite Ht. simpl. rewrite <- !app_assoc. simpl.
  now rewrite (Z.mul_comm d 2).
Qed.

End Fetcher.

(** C6. A failed attempt is followed by another exactly when a retry is
    left and the failure has no response status or status 429, 502 or 503;
    otherwise the error of that attempt is thrown at once; a response is
    returned at once; a call makes at most one attempt more than its
    retries, so at most 4 with the 3 retries of [MAX_RETRIES]. Statuses
    are HTTP status codes, so never 0. *)
Theorem fetch_retry_policy (url : string) (retries : nat) (delayMs : Z) (w : World) :
  let out := fetchPageWithRetry url retries delayMs w in
  (forall data, net w (issued w) url = Response data ->
                out = (Ok data, after_get url w)) /\
  (forall e, net w (issued w) url = Failure e ->
             response_status e <> Some 0%Z ->
             let retry := should_retry retries (response_status e) in
             ((S (issued w) < issued (snd out))%nat <-> retry) /\
             (retry -> out = fetchPageWithRetry url (retries - 1) (delayMs * 2)
                               (after_delay (delayMs * 2) (after_get url w))) /\
             (~ retry -> out = (Throw e, after_get url w))) /\
  (S (issued w) <= issued (snd out) <= issued w + S retries)%nat /\
  (retries = MAX_RETRIES -> (issued (snd out) <= issued w + 4)%nat).
Proof.
  intros out. subst out. split; [|split; [|split]].
  - intros data H. now rewrite fetch_step, H.
  - intros e He H0 retry. subst retry.
    assert (Hyes : should_retry retries (response_status e) ->
                   fetchPageWithRetry url retries delayMs w =
                   fetchPageWithRetry url (retries - 1) (delayMs * 2)
                     (after_delay (delayMs * 2) (after_get url w))).
    { intros Hr. rewrite fetch_step, He. destruct retries as [|r].
      - destruct Hr as [Hr _]. lia.
      - apply (should_retry_iff r) in Hr; [|exact H0]. rewrite Hr.
        now rewrite Nat.sub_1_r. }
    assert (Hno : ~ should_retry retries (response_status e) ->
                  fetchPageWithRetry url retries delayMs w
                  = (Throw e, after_get url w)).
    { intros Hr. rewrite fetch_step, He. destruct retries as [|r]; [reflexivity|].
      destruct (retryable (response_status e)) eqn:E; [|reflexivity].
      exfalso. apply Hr. now apply should_retry_iff. }
    split; [|split; assumption].
    split.
    + intros Hlt. destruct retries as [|r].
      * rewrite Hno in Hlt; [simpl in Hlt; lia|]. intros [Hr _]. lia.
      * destruct (retryable (response_status e)) eqn:E;
          [now apply should_retry_iff|].
        rewrite Hno in Hlt; [simpl in Hlt; lia|].
        intros Hr. apply should_retry_iff in Hr; [congruence|exact H0].
    + intros Hr. rewrite (Hyes Hr).
      pose proof (fetch_attempts url (retries - 1) (delayMs * 2)
                    (after_delay (delayMs * 2) (after_get url w))) as Ha.
      simpl in Ha. lia.
  - apply fetch_attempts.
  - intros ->. pose proof (fetch_attempts url MAX_RETRIES delayMs w) as Ha.
    unfold MAX_RETRIES in *. lia.
Qed.

(** A fetch that receives HTTP 503 twice and then a page succeeds after two
    waits. *)
Example fetch_503_503_200 :
  let failure := Failure (mkError (Some 503%Z) "Service Unavailable") in
  let out := fetchPageWithRetry "https://jo.opensooq.com/x" MAX_RETRIES INITIAL_DELAY
               (scripted [failure; failure; Response "<html>ok</html>"]) in
  fst out = Ok "<html>ok</html>"%string /\
  length (delays (trace (snd out))) = 2%nat /\
  issued (snd out) = 3%nat.
Proof. repeat split. Qed.

(** A fetch that receives HTTP 404 fails at once, with no retry. *)
Lemma fetch_retry_policy_witness :
  fetchPageWithRetry "https://jo.opensooq.com/x" MAX_RETRIES INITIAL_DELAY
    (always_failing (Some 404%Z))
  = (Throw (mkError (Some 404%Z) "failed"),
     after_get "https://jo.opensooq.com/x" (always_failing (Some 404%Z))).
Proof.
  pose proof (fetch_retry_policy "https://jo.opensooq.com/x" MAX_RETRIES
                INITIAL_DELAY (always_failing (Some 404%Z))) as (_ & H & _).
  destruct (H (mkError (Some 404%Z) "failed") eq_refl) as (_ & _ & Hno).
  - discriminate.
  - apply Hno. intros [_ [Hs|[Hs|[Hs|Hs]]]]; discriminate Hs.
Defined.

Section Backoff.

Lemma delays_backoff (url : string) (m : nat) (delayMs : Z) :
  delays (backoff_events url m delayMs)
  = map (fun k => (delayMs * 2 ^ Z.of_nat (S k))%Z) (seq 0 m).
Proof.
  revert delayMs. induction m as [|m IH]; intros d; [reflexivity|].
  cbn [backoff_events]. unfold delays in *. cbn [omap list_omap].
  rewrite IH. cbn [seq map]. f_equal; [lia|].
  rewrite <- seq_shift, map_map. apply map_ext. intros k.
  rewrite (Nat2Z.inj_succ (S k)), Z.pow_succ_r by lia. lia.
Qed.

End Backoff.

(** C7, as stated, fails: when every attempt fails with HTTP 503 the waits
    before the three retries are 600, 1200 and 2400 ms, not 300, 600 and
    1200 ms. *)
Lemma first_backoff_is_doubled :
  let w' := snd (fetchPageWithRetry "https://jo.opensooq.com/x" MAX_RETRIES
                   INITIAL_DELAY (always_failing (Some 503%Z))) in
  delays (trace w') = [600; 1200; 2400]%Z /\
  delays (trace w') <> [300; 600; 1200]%Z.
Proof. split; [reflexivity | discriminate]. Qed.

(** C7, amended. No delay is awaited before the first attempt; the delay
    awaited before each retry is twice the previous one, the first being
    twice the delay the call was given: with [INITIAL_DELAY] = 300 ms the
    waits before retries 1, 2 and 3 are 600, 1200 and 2400 ms. *)
Theorem backoff_doubles (url : string) (retries : nat) (delayMs : Z) (w : World) :
  let w' := snd (fetchPageWithRetry url retries delayMs w) in
  exists m evs,
    (m <= retries)%nat /\
    trace w' = trace w ++ EvGet url :: evs /\
    evs = backoff_events url m delayMs /\
    delays (EvGet url :: evs)
    = map (fun k => (delayMs * 2 ^ Z.of_nat (S k))%Z) (seq 0 m) /\
    (retries = MAX_RETRIES -> delayMs = INITIAL_DELAY ->
     delays (EvGet url :: evs) = take m [600; 1200; 2400]%Z).
Proof.
  intros w'. destruct (fetch_trace url retries delayMs w) as (m & Hm & _ & Ht).
  exists m, (backoff_events url m delayMs).
  split; [exact Hm|]. split; [exact Ht|]. split; [reflexivity|].
  change (delays (EvGet url :: backoff_events url m delayMs))
    with (delays (backoff_events url m delayMs)).
  split; [apply delays_backoff|].
  intros -> ->. unfold MAX_RETRIES in Hm.
  destruct m as [|[|[|[|m]]]]; try reflexivity. lia.
Qed.

Lemma backoff_doubles_witness :
  exists m evs,
    (m <= 3)%nat /\
    trace (snd (fetchPageWithRetry "https://jo.opensooq.com/x" MAX_RETRIES
                  INITIAL_DELAY (always_failing None)))
    = EvGet "https://jo.opensooq.com/x" :: evs /\
    delays (EvGet "https://jo.opensooq.com/x" :: evs) = take m [600; 1200; 2400]%Z.
Proof.
  destruct (backoff_doubles "https://jo.opensooq.com/x" MAX_RETRIES INITIAL_DELAY
              (always_failing None)) as (m & evs & Hm & Ht & _ & _ & Hd).
  exists m, evs. split; [exact Hm|]. split; [exact Ht|].
  apply Hd; reflexivity.
Defined.

(** ** Detail pages and batches *)

Section Monad.

Lemma bind_Ok {A B} (m : M A) (k : A -> M B) (w w' : World) (b : B) :
  bind m k w = (Ok b, w') ->
  exists a w1, m w = (Ok a, w1) /\ k a w1 = (Ok b, w').
Proof.
  unfold bind. destruct (m w) as [[a|e|] w1]; intros H; try discriminate H.
  eauto.
Qed.

End Monad.

Section Details.

Variable env : Env.

Lemma scrapeItemDetails_run (url : string) (w : World) :
  let out := fetchPageWithRetry url MAX_RETRIES INITIAL_DELAY w in
  scrapeItemDetails env url w = (Ok (details_of env (fst out)), snd out).
Proof.
  cbv zeta. unfold scrapeItemDetails, try_catch, bind, lift, ret.
  pose proof (fetch_returns url MAX_RETRIES INITIAL_DELAY w) as Hret.
  destruct (fetchPageWithRetry url MAX_RETRIES INITIAL_DELAY w) as [[html|e|] w1];
    simpl in *; [|reflexivity|congruence].
  destruct (load_detail env html); reflexivity.
Qed.

Lemma scrape_listing_run (listing : ListingItem) (index : nat) (w : World) :
  exists item w',
    scrape_listing env listing index w = (Ok item, w') /\
    link item = l_link listing.
Proof.
  unfold scrape_listing, bind. rewrite scrapeItemDetails_run.
  eexists _, _. split; reflexivity.
Qed.

End Details.

Section Batches.

Context {T R K : Type}.
Variable processor : T -> nat -> M R.
Variable key_r : R -> K.
Variable key_t : T -> K.
Hypothesis processor_ok :
  forall x i w, exists r w', processor x i w = (Ok r, w') /\ key_r r = key_t x.

Lemma Promise_all_ok (batch : list T) (i : nat) (w : World) :
  exists rs w',
    Promise_all processor i batch w = (Ok rs, w') /\
    key_r <$> rs = key_t <$> batch.
Proof.
  revert i w. induction batch as [|x batch IH]; intros i w.
  - exists [], w. split; reflexivity.
  - destruct (processor_ok x i w) as (r & w1 & Hr & Hk).
    destruct (IH (S i) w1) as (rs & w2 & Hrs & Hks).
    exists (r :: rs), w2. split.
    + simpl. unfold bind. now rewrite Hr, Hrs.
    + now rewrite !fmap_cons, Hk, Hks.
Qed.

Variable concurrency : nat.
Variable delayBetweenBatches : Z.

(** Whatever the fuel, a result of the loop holds the earlier results
    followed by one result per remaining item, in order. *)
Lemma batches_from_result (fuel : nat) (todo : list T) (i : nat)
    (results rs : list R) (w w' : World) :
  batches_from fuel todo processor concurrency delayBetweenBatches i results w
  = (Ok rs, w') ->
  key_r <$> rs = (key_r <$> results) ++ (key_t <$> drop i todo).
Proof.
  revert i results w. induction fuel as [|fuel IH]; intros i results w; simpl.
  - discriminate.
  - destruct (i <? length todo)%nat eqn:Ei.
    + intros H. apply bind_Ok in H as (batchResults & w1 & Hb & H).
      apply bind_Ok in H as (u & w2 & _ & H).
      apply IH in H. rewrite H, fmap_app, <- app_assoc. f_equal.
      destruct (Promise_all_ok (take concurrency (drop i todo)) i w)
        as (rs' & w1' & Hb' & Hk).
      rewrite Hb in Hb'. injection Hb' as <- <-.
      rewrite Hk, <- fmap_app, <- drop_drop. now rewrite take_drop.
    + intros H. injection H as <- <-. apply Nat.ltb_ge in Ei.
      rewrite drop_ge by exact Ei. simpl. now rewrite app_nil_r.
Qed.

(** With a positive batch size the loop ends within the fuel of one step
    per remaining item. *)
Lemma batches_from_ok (fuel : nat) (todo : list T) (i : nat)
    (results : list R) (w : World) :
  (0 < concurrency)%nat -> (length todo - i < fuel)%nat ->
  exists rs w',
    batches_from fuel todo processor concurrency delayBetweenBatches i results w
    = (Ok rs, w').
Proof.
  intros Hc. revert i results w.
  induction fuel as [|fuel IH]; intros i results w Hfuel; [lia|]. simpl.
  destruct (i <? length todo)%nat eqn:Ei; [|eexists _, _; reflexivity].
  apply Nat.ltb_lt in Ei.
  destruct (Promise_all_ok (take concurrency (drop i todo)) i w)
    as (rs' & w1 & Hb & _).
  unfold bind at 1. rewrite Hb.
  destruct (i + concurrency <? length todo)%nat; unfold bind, delay, ret;
    apply IH; lia.
Qed.

End Batches.

(** C8. [scrapeItemDetails] always returns: when its fetch fails after the
    retries, or reading the markup throws, it returns the empty detail
    (null price, empty price text, empty description, no attribute), and
    otherwise what the page holds; so the batches over any listings return
    one item per listing, in order. *)
Theorem scrapeItemDetails_never_fails (env : Env) (url : string) (w : World) :
  let out := fetchPageWithRetry url MAX_RETRIES INITIAL_DELAY w in
  (exists details,
     scrapeItemDetails env url w = (Ok details, snd out) /\
     (forall e, fst out = Throw e -> details = mkDetails None "" "" ∅) /\
     (forall html e, fst out = Ok html -> load_detail env html = inl e ->
                     details = mkDetails None "" "" ∅) /\
     (forall html page, fst out = Ok html -> load_detail env html = inr page ->
                        details = extract_details page)) /\
  (forall listings,
     exists scraped w',
       processInBatches (S (length listings)) listings (scrape_listing env)
         CONCURRENT_REQUESTS 500 w = (Ok scraped, w') /\
       link <$> scraped = l_link <$> listings).
Proof.
  intros out. split.
  - exists (details_of env (fst out)). split; [apply scrapeItemDetails_run|].
    unfold details_of. split; [|split].
    + intros e ->. reflexivity.
    + intros html e -> ->. reflexivity.
    + intros html page -> ->. reflexivity.
  - intros listings. unfold processInBatches.
    destruct (batches_from_ok (scrape_listing env) link l_link
                (scrape_listing_run env) CONCURRENT_REQUESTS 500
                (S (length listings)) listings 0 [] w) as (rs & w' & Hrs).
    { unfold CONCURRENT_REQUESTS. lia. }
    { lia. }
    exists rs, w'. split; [exact Hrs|].
    apply (batches_from_result (scrape_listing env) link l_link
             (scrape_listing_run env)) in Hrs.
    exact Hrs.
Qed.

Lemma scrapeItemDetails_never_fails_witness :
  scrapeItemDetails bad_detail_env "https://jo.opensooq.com/x"
    (always_failing (Some 500%Z))
  = (Ok (mkDetails None "" "" ∅),
     snd (fetchPageWithRetry "https://jo.opensooq.com/x" MAX_RETRIES INITIAL_DELAY
            (always_failing (Some 500%Z)))).
Proof.
  destruct (scrapeItemDetails_never_fails bad_detail_env "https://jo.opensooq.com/x"
              (always_failing (Some 500%Z))) as [(details & Hrun & Hfail & _) _].
  rewrite Hrun. f_equal. f_equal.
  apply (Hfail (mkError (Some 500%Z) "failed")). reflexivity.
Defined.

(** ** Attributes *)

Section Attributes.

Lemma truthy_iff (s : string) : Str.truthy s = true <-> s <> EmptyString.
Proof.
  destruct s; simpl; split; intros H; try discriminate; try reflexivity.
  now elim H.
Qed.

Lemma set_property_Forall {V} (P : string -> V -> Prop) (k : string) (v : V)
    (m : gmap string V) :
  P k v -> map_Forall P m -> map_Forall P (set_property k v m).
Proof.
  intros Hv Hm. unfold set_property.
  destruct (String.eqb k "__proto__"); [exact Hm|].
  now apply map_Forall_insert_2.
Qed.

Lemma lookup_set_property_ne {V} (k k' : string) (v : V) (m : gmap string V) :
  k <> k' -> set_property k v m !! k' = m !! k'.
Proof.
  intros Hk. unfold set_property.
  destruct (String.eqb k "__proto__"); [reflexivity|].
  now apply lookup_insert_ne.
Qed.


Lemma second_pass_step_writes (attrs : gmap string AttrValue) (el : FieldElement) :
  second_pass_writes el ->
  second_pass_step attrs el = <[label el := split_value (wide_value el)]> attrs.
Proof.
  intros (H1 & H2 & H3 & H4). unfold second_pass_step, set_property.
  fold (label el) (wide_value el).
  apply truthy_iff in H1, H2. apply String.eqb_neq in H3, H4.
  now rewrite H1, H2, H3, H4.
Qed.

Lemma second_pass_step_skips (attrs : gmap string AttrValue) (el : FieldElement) :
  ~ second_pass_writes el -> second_pass_step attrs el = attrs.
Proof.
  intros H. unfold second_pass_step, set_property. fold (label el) (wide_value el).
  destruct (Str.truthy (label el)) eqn:E1; [|reflexivity].
  destruct (Str.truthy (wide_value el)) eqn:E2; [|reflexivity].
  destruct (String.eqb (label el) "VIN Number") eqn:E3; [reflexivity|].
  destruct (String.eqb (label el) "__proto__") eqn:E4; [reflexivity|].
  exfalso. apply H. repeat split.
  - now apply truthy_iff.
  - now apply truthy_iff.
  - now apply String.eqb_neq.
  - now apply String.eqb_neq.
Qed.

Lemma filter_none {A} (P : A -> Prop) `{!forall x, Decision (P x)} (l : list A) :
  (forall x, x ∈ l -> ~ P x) -> filter P l = [].
Proof.
  induction l as [|a l IH]; intros Hl; [reflexivity|].
  rewrite filter_cons. destruct (decide (P a)) as [HP|_].
  - exfalso. apply (Hl a); [left | exact HP].
  - apply IH. intros x Hx. apply Hl. now right.
Qed.



(** The value under [k] after the loop is the one written from the last
    full-row item labelled [k] that writes, if any. *)
Lemma second_pass_lookup (els : list FieldElement) (attrs : gmap string AttrValue)
    (k : string) :
  fold_left second_pass_step els attrs !! k =
    match last (filter (fun el => second_pass_writes el /\ label el = k) els) with
    | Some el => Some (split_value (wide_value el))
    | None => attrs !! k
    end.
Proof.
  revert attrs. induction els as [|el els IH]; intros attrs; [reflexivity|].
  simpl. rewrite IH, filter_cons.
  destruct (decide (second_pass_writes el /\ label el = k)) as [[Hw <-]|Hn].
  - rewrite last_cons.
    destruct (last (filter _ els)) as [el'|]; [reflexivity|].
    rewrite second_pass_step_writes by exact Hw. apply lookup_insert_eq.
  - destruct (last (filter _ els)) as [el'|]; [reflexivity|].
    destruct (decide (second_pass_writes el)) as [Hw|Hw].
    + rewrite second_pass_step_writes by exact Hw.
      apply lookup_insert_ne. intros E. apply Hn. now split.
    + now rewrite second_pass_step_skips.
Qed.




End Attributes.




(** ** The pagination crawler *)

Section Crawler.



Variable env : Env.



End Crawler.




(** * Further properties *)

(** ** The fetcher: the outcome of a call *)

Section FetchOutcome.

Lemma outcome_at_shift (url : string) (ms : Z) (w : World) (j : nat) :
  outcome_at (after_delay ms (after_get url w)) url j = outcome_at w url (S j).
Proof. unfold outcome_at. simpl. f_equal. lia. Qed.

End FetchOutcome.

(** X1. A call of [fetchPageWithRetry] ends with its last attempt: every
    earlier attempt failed in a way that is retried, the call returns the
    data of the last attempt when it is a response, and otherwise throws the
    error of that last attempt (not of the first), which was either the
    attempt after the last retry or a failure that is not retried. *)
Theorem fetch_last_attempt (url : string) (retries : nat) (delayMs : Z) (w : World) :
  let out := fetchPageWithRetry url retries delayMs w in
  exists k,
    (k <= retries)%nat /\
    retried_through w url k /\
    issued (snd out) = (issued w + S k)%nat /\
    match outcome_at w url k with
    | Response data => fst out = Ok data
    | Failure e =>
        fst out = Throw e /\
        (k = retries \/ retryable (response_status e) = false)
    end.
Proof.
  assert (Hstop : forall (retries : nat) (w : World) (res : Result string),
             match net w (issued w) url with
             | Response data => res = Ok data
             | Failure e => res = Throw e /\
                            (0%nat = retries \/ retryable (response_status e) = false)
             end ->
             exists k,
               (k <= retries)%nat /\ retried_through w url k /\
               issued (after_get url w) = (issued w + S k)%nat /\
               match outcome_at w url k with
               | Response data => res = Ok data
               | Failure e => res = Throw e /\
                              (k = retries \/ retryable (response_status e) = false)
               end).
  { intros n w0 res H. exists 0%nat. split; [lia|].
    split; [intros j Hj; lia|]. split; [simpl; lia|].
    unfold outcome_at. now rewrite Nat.add_0_r. }
  revert delayMs w. induction retries as [|r IH]; intros d w; cbv zeta;
    rewrite fetch_step.
  - destruct (net w (issued w) url) as [data|e] eqn:E; simpl;
      apply (Hstop 0%nat w); rewrite E; auto.
  - destruct (net w (issued w) url) as [data|e] eqn:E.
    + simpl. apply (Hstop (S r) w). now rewrite E.
    + destruct (retryable (response_status e)) eqn:Er.
      * destruct (IH (d * 2)%Z (after_delay (d * 2) (after_get url w)))
          as (k & Hk & Hret & Hiss & Hout).
        exists (S k). split; [lia|]. split; [|split].
        -- intros j Hj. destruct j as [|j].
           ++ exists e. unfold outcome_at. rewrite Nat.add_0_r. auto.
           ++ rewrite <- (outcome_at_shift url (d * 2)). apply Hret. lia.
        -- rewrite Hiss. simpl. lia.
        -- rewrite outcome_at_shift in Hout.
           destruct (outcome_at w url (S k)) as [data|e']; [exact Hout|].
           destruct Hout as [Ht [Hl|Hl]]; split; auto; left; lia.
      * simpl. apply (Hstop (S r) w). rewrite E. auto.
Qed.

(** ** Batches: cost, order and pacing *)

Section BatchCost.

Context {T R : Type}.
Variable processor : T -> nat -> M R.
Variables lo hi : nat.
Hypothesis processor_cost :
  forall x i w, exists r w',
    processor x i w = (Ok r, w') /\
    (issued w + lo <= issued w' <= issued w + hi)%nat /\ net w' = net w.

Lemma Promise_all_cost (batch : list T) (i : nat) (w : World) :
  exists rs w',
    Promise_all processor i batch w = (Ok rs, w') /\
    (issued w + lo * length batch <= issued w'
     <= issued w + hi * length batch)%nat /\
    net w' = net w.
Proof.
  revert i w. induction batch as [|x batch IH]; intros i w.
  - exists [], w. simpl. split; [reflexivity|]. split; [lia|reflexivity].
  - destruct (processor_cost x i w) as (r & w1 & Hr & Hc & Hn).
    destruct (IH (S i) w1) as (rs & w2 & Hrs & Hcs & Hns).
    exists (r :: rs), w2. split.
    + simpl. unfold bind. now rewrite Hr, Hrs.
    + split; [|congruence]. cbn [length].
      rewrite !Nat.mul_succ_r. lia.
Qed.

Lemma batches_from_cost (concurrency : nat) (delayMs : Z) (fuel : nat)
    (todo : list T) (i : nat) (results rs : list R) (w w' : World) :
  batches_from fuel todo processor concurrency delayMs i results w = (Ok rs, w') ->
  (issued w + lo * (length todo - i) <= issued w'
   <= issued w + hi * (length todo - i))%nat /\
  net w' = net w.
Proof.
  revert i results w. induction fuel as [|fuel IH]; intros i results w; simpl.
  - discriminate.
  - destruct (i <? length todo)%nat eqn:Ei.
    + apply Nat.ltb_lt in Ei. intros H.
      apply bind_Ok in H as (batchResults & w1 & Hb & H).
      apply bind_Ok in H as (u & w2 & Hd & H).
      apply IH in H as [Hc Hn].
      destruct (Promise_all_cost (take concurrency (drop i todo)) i w)
        as (rs' & w1' & Hb' & Hcb & Hnb).
      rewrite Hb in Hb'. injection Hb' as <- <-.
      assert (Hw2 : issued w2 = issued w1 /\ net w2 = net w1).
      { destruct (i + concurrency <? length todo)%nat; unfold delay, ret in Hd;
          injection Hd as _ <-; split; reflexivity. }
      destruct Hw2 as [Hi2 Hn2].
      assert (Hsplit : (length (take concurrency (drop i todo))
                        + (length todo - (i + concurrency)) = length todo - i)%nat).
      { rewrite length_take, length_drop. lia. }
      rewrite <- Hsplit, !Nat.mul_add_distr_l. split; [lia|congruence].
    + apply Nat.ltb_ge in Ei. intros [= <- <-].
      replace (length todo - i)%nat with 0%nat by lia. split; [lia|reflexivity].
Qed.

End BatchCost.

Section DetailCost.

Variable env : Env.

Lemma fetch_keeps_net (url : string) (retries : nat) (delayMs : Z) (w : World) :
  net (snd (fetchPageWithRetry url retries delayMs w)) = net w.
Proof.
  revert delayMs w. induction retries as [|r IH]; intros d w;
    rewrite fetch_step; destruct (net w (issued w) url) as [?|e]; try reflexivity.
  destruct (retryable _); [|reflexivity]. now rewrite IH.
Qed.

Lemma scrape_listing_cost (listing : ListingItem) (index : nat) (w : World) :
  exists item w',
    scrape_listing env listing index w = (Ok item, w') /\
    (issued w + 1 <= issued w' <= issued w + 4)%nat /\ net w' = net w.
Proof.
  unfold scrape_listing, bind. rewrite scrapeItemDetails_run.
  eexists _, _. split; [reflexivity|]. cbn [snd].
  pose proof (fetch_attempts (l_link listing) MAX_RETRIES INITIAL_DELAY w) as H.
  unfold MAX_RETRIES in *. split; [lia | apply fetch_keeps_net].
Qed.

End DetailCost.

(** X2. Scraping the detail pages of [n] listings issues at least [n] and
    at most [4 * n] requests, and leaves the network as it was. *)
Theorem detail_requests_bounded (env : Env) (listings : list ListingItem) (w : World) :
  let out := processInBatches (S (length listings)) listings (scrape_listing env)
               CONCURRENT_REQUESTS 500 w in
  (issued w + length listings <= issued (snd out)
   <= issued w + 4 * length listings)%nat /\
  net (snd out) = net w.
Proof.
  cbv zeta. unfold processInBatches.
  destruct (batches_from_ok (scrape_listing env) link l_link
              (scrape_listing_run env) CONCURRENT_REQUESTS 500
              (S (length listings)) listings 0 [] w) as (rs & w' & Hrs).
  { unfold CONCURRENT_REQUESTS. lia. }
  { lia. }
  rewrite Hrs. cbn [snd].
  apply (batches_from_cost (scrape_listing env) 1 4 (scrape_listing_cost env)) in Hrs.
  rewrite Nat.sub_0_r, Nat.mul_1_l in Hrs. exact Hrs.
Qed.

Section PureBatches.

Context {T R : Type}.
Variable f : T -> nat -> R.

Lemma Promise_all_pure (batch : list T) (i : nat) (w : World) :
  Promise_all (fun x k => ret (f x k)) i batch w
  = (Ok (imap (fun j x => f x (i + j)) batch), w).
Proof.
  revert i. induction batch as [|x batch IH]; intros i; [reflexivity|].
  simpl. unfold bind, ret. rewrite IH. unfold ret. rewrite Nat.add_0_r.
  do 3 f_equal. apply imap_ext. intros j y _. simpl. f_equal. lia.
Qed.

Lemma batches_from_pure (concurrency : nat) (delayMs : Z) (fuel : nat)
    (todo : list T) (i : nat) (results : list R) (w : World) :
  (0 < concurrency)%nat -> (length todo - i < fuel)%nat ->
  batches_from fuel todo (fun x k => ret (f x k)) concurrency delayMs i results w
  = (Ok (results ++ imap (fun j x => f x (i + j)) (drop i todo)),
     after_delays (if (i <? length todo)%nat
                   then (length todo - i - 1) / concurrency else 0)%nat
       delayMs w).
Proof.
  intros Hc. revert i results w.
  induction fuel as [|fuel IH]; intros i results w Hfuel; [lia|]. simpl.
  destruct (i <? length todo)%nat eqn:Ei.
  - apply Nat.ltb_lt in Ei. unfold bind at 1. rewrite Promise_all_pure.
    destruct (i + concurrency <? length todo)%nat eqn:Ec.
    + apply Nat.ltb_lt in Ec. unfold bind, delay. rewrite IH by lia.
      apply Nat.ltb_lt in Ec as Ec'. rewrite Ec'. f_equal.
      * rewrite <- app_assoc. f_equal. apply (f_equal2 app); [reflexivity|].
        rewrite <- (take_drop concurrency (drop i todo)) at 2.
        rewrite imap_app, drop_drop. apply (f_equal2 app); [reflexivity|].
        apply imap_ext. intros j y _. simpl. f_equal.
        rewrite length_take, length_drop. lia.
      * unfold after_delays. simpl. f_equal. rewrite <- app_assoc. f_equal.
        replace (length todo - i - 1)%nat
          with (length todo - (i + concurrency) - 1 + 1 * concurrency)%nat by lia.
        rewrite Nat.div_add by lia. rewrite Nat.add_1_r. reflexivity.
    + apply Nat.ltb_ge in Ec. unfold bind, ret.
      destruct fuel as [|fuel']; [lia|]. simpl.
      replace (i + concurrency <? length todo)%nat with false
        by (symmetry; apply Nat.ltb_ge; lia).
      unfold ret. f_equal.
      * rewrite take_ge by (rewrite length_drop; lia). reflexivity.
      * rewrite Nat.div_small by lia. unfold after_delays. simpl.
        rewrite app_nil_r. now destruct w.
  - apply Nat.ltb_ge in Ei. unfold ret. f_equal.
    + rewrite drop_ge by lia. simpl. now rewrite app_nil_r.
    + unfold after_delays. simpl. rewrite app_nil_r. now destruct w.
Qed.

End PureBatches.

(** X3. With a positive batch size and a worker that only computes,
    [processInBatches] returns one result per item in the order of the
    input, the worker of the item at position [k] having received the index
    [k], and awaits exactly [(n - 1) / concurrency] delays, one between
    successive batches and none after the last. *)
Theorem processInBatches_order {T R : Type} (f : T -> nat -> R) (todo : list T)
    (concurrency : nat) (delayMs : Z) (fuel : nat) (w : World) :
  (0 < concurrency)%nat -> (length todo < fuel)%nat ->
  processInBatches fuel todo (fun x k => ret (f x k)) concurrency delayMs w
  = (Ok (imap (fun k x => f x k) todo),
     after_delays ((length todo - 1) / concurrency) delayMs w).
Proof.
  intros Hc Hfuel. unfold processInBatches.
  rewrite batches_from_pure by lia. rewrite drop_0, Nat.sub_0_r. simpl. f_equal.
  destruct todo as [|x todo]; [|reflexivity].
  simpl. now rewrite Nat.Div0.div_0_l.
Qed.

(** Five items in batches of two: three batches, two delays. *)
Lemma processInBatches_order_witness :
  processInBatches 6 ["a"; "b"; "c"; "d"; "e"]%string
    (fun x k => ret (x, k)) 2 500 (always_failing None)
  = (Ok [("a", 0); ("b", 1); ("c", 2); ("d", 3); ("e", 4)]%string%nat,
     after_delays 2 500 (always_failing None)).
Proof.
  apply (processInBatches_order (fun (x : string) (k : nat) => (x, k))); simpl; lia.
Defined.

(** X4. With a batch size of 0 the loop of [processInBatches] never
    advances: on a non-empty input it does not return, whatever the
    number of iterations allowed. *)
Theorem processInBatches_zero_diverges {T R : Type} (processor : T -> nat -> M R)
    (todo : list T) (delayMs : Z) (fuel : nat) (w : World) :
  todo <> [] ->
  fst (processInBatches fuel todo processor 0 delayMs w) = OutOfFuel.
Proof.
  intros Hne. unfold processInBatches.
  assert (Hlen : (0 < length todo)%nat) by (destruct todo; [congruence|simpl; lia]).
  generalize (@nil R) as results. revert w.
  induction fuel as [|fuel IH]; intros w results; [reflexivity|]. simpl.
  apply Nat.ltb_lt in Hlen as Hlt. rewrite Hlt.
  unfold bind, ret, delay. apply IH.
Qed.

Lemma processInBatches_zero_diverges_witness :
  fst (processInBatches 1000 ["a"]%string
         (fun (x : string) (k : nat) => ret x) 0 500 (always_failing None))
  = OutOfFuel.
Proof.
  apply (processInBatches_zero_diverges (fun (x : string) (k : nat) => ret x)).
  discriminate.
Defined.


(** ** Result pages *)

Section Listings.

Lemma prefix_app (p a b : string) :
  String.prefix p a = true -> String.prefix p (a +:+ b) = true.
Proof.
  revert a. induction p as [|c p IH]; intros a H.
  - now destruct (a +:+ b).
  - destruct a as [|d a]; [discriminate H|]. simpl in *.
    destruct (ascii_dec c d); [now apply IH | discriminate H].
Qed.


Lemma next_page_url_Some (baseUrl : string) (page : ListingPage) (u : string) :
  next_page_url baseUrl page = Some u ->
  Str.truthy u = true /\ (absolute baseUrl -> absolute u).
Proof.
  unfold next_page_url, absolute, Str.startsWith.
  destruct (0 <? pagination_length page)%nat; [|discriminate].
  destruct (_ && _); [|discriminate].
  destruct (nextPageArrow_href page) as [href|]; [|discriminate].
  destruct (Str.truthy href) eqn:Eh; [|discriminate].
  destruct (String.prefix "http" href) eqn:Ep; intros [= <-].
  - auto.
  - split; [|intros Hb; now apply prefix_app].
    destruct baseUrl; [exact Eh | reflexivity].
Qed.


End Listings.



(** ** The pagination crawler: where it stops and where it does not *)

Section CrawlSteps.

Variable env : Env.


Lemma crawl_step (fuel : nat) (baseUrl url : string) (seen : gset string)
    (acc : list ListingItem) (w w1 : World) (html : string) (page : ListingPage) :
  Str.truthy url = true ->
  fetchPageWithRetry url MAX_RETRIES INITIAL_DELAY w = (Ok html, w1) ->
  load_listing env html = inr page ->
  let merged :=
    fold_left add_unique (listings (extractListingsFromPage page baseUrl)) (seen, acc) in
  crawl env (S fuel) baseUrl (Some url) seen acc w =
    if includes_recommended page then (Ok merged.2, w1)
    else
      match next_page_url baseUrl page with
      | Some next =>
          crawl env fuel baseUrl (Some next) merged.1 merged.2 (after_delay 500 w1)
      | None => crawl env fuel baseUrl None merged.1 merged.2 w1
      end.
Proof.
  intros Hu Hf Hl merged. cbn [crawl]. rewrite Hu.
  unfold bind at 1. rewrite Hf. unfold bind at 1, lift at 1. rewrite Hl.
  cbn [listings hasRecommendedListings nextPageUrl extractListingsFromPage].
  fold (extractListingsFromPage page baseUrl).
  change (omap (extract_item baseUrl) (item_elements page))
    with (listings (extractListingsFromPage page baseUrl)).
  fold merged. destruct merged as [seen' acc'] eqn:Em. cbn [fst snd].
  destruct (includes_recommended page); [reflexivity|].
  destruct (next_page_url baseUrl page) as [next|] eqn:En.
  - apply next_page_url_Some in En as [Ht _]. unfold url_truthy. rewrite Ht.
    reflexivity.
  - reflexivity.
Qed.

End CrawlSteps.

(** X6. A result page that carries the "Recommended Listings" marker, or
    that has no next-page URL, ends the pagination: the crawler returns the
    listings accumulated so far merged with those of the page, without
    awaiting a delay or issuing a request after the fetch of that page,
    even when the marked page has a next-page link. *)
Theorem crawl_stops (env : Env) (fuel : nat) (baseUrl url : string)
    (seen : gset string) (acc : list ListingItem) (w w1 : World)
    (html : string) (page : ListingPage) :
  Str.truthy url = true ->
  fetchPageWithRetry url MAX_RETRIES INITIAL_DELAY w = (Ok html, w1) ->
  load_listing env html = inr page ->
  includes_recommended page = true \/ next_page_url baseUrl page = None ->
  crawl env (S (S fuel)) baseUrl (Some url) seen acc w =
    (Ok (fold_left add_unique (listings (extractListingsFromPage page baseUrl))
           (seen, acc)).2, w1).
Proof.
  intros Hu Hf Hl Hend.
  rewrite (crawl_step env (S fuel) baseUrl url seen acc w w1 html page Hu Hf Hl).
  destruct (includes_recommended page); [reflexivity|].
  destruct Hend as [Hend|Hend]; [discriminate Hend|]. now rewrite Hend.
Qed.

(** The second sample page has the marker and a next-page link. *)
Lemma crawl_stops_witness :
  crawl sample_env 2 "https://jo.opensooq.com"
    (Some "https://jo.opensooq.com/en/cars?page=2"%string) ∅ [] sample_world
  = (Ok [ mkListing "https://jo.opensooq.com/b" "Jeep 2020" "";
          mkListing "https://jo.opensooq.com/c" "Jeep 2021" "" ],
     after_get "https://jo.opensooq.com/en/cars?page=2" sample_world).
Proof.
  rewrite (crawl_stops sample_env 0 "https://jo.opensooq.com"
             "https://jo.opensooq.com/en/cars?page=2" ∅ [] sample_world
             (after_get "https://jo.opensooq.com/en/cars?page=2" sample_world)
             "page 2" sample_page2).
  - vm_compute. reflexivity.
  - reflexivity.
  - reflexivity.
  - reflexivity.
  - left. reflexivity.
Defined.



(** ** The run and the route: what can make them fail *)

Section RunErrors.

Variable env : Env.




End RunErrors.






(** ** Attributes: what the two passes can store *)

Section AttributeValues.

Lemma split_value_well_formed (valueText : string) :
  valueText <> EmptyString -> well_formed_value (split_value valueText).
Proof.
  intros Hne. unfold split_value.
  destruct (1 <? length _)%nat eqn:E; simpl; [|exact Hne].
  apply Nat.ltb_lt in E. split; [lia|].
  apply Forall_forall. intros t Ht. apply list_elem_of_In in Ht.
  apply filter_In in Ht as [_ Ht]. now apply truthy_iff.
Qed.

Lemma first_pass_step_well_formed (attrs : gmap string AttrValue) (el : FieldElement) :
  map_Forall (fun _ v => well_formed_value v) attrs ->
  map_Forall (fun _ v => well_formed_value v) (first_pass_step attrs el).
Proof.
  intros H. unfold first_pass_step.
  destruct (hasClass_fullRow el || (0 <? width75_length el)%nat).
  - destruct (Str.truthy (Str.trim (width75_text el))) eqn:E; [|exact H].
    apply set_property_Forall; [|exact H].
    apply split_value_well_formed. now apply truthy_iff.
  - destruct (Str.truthy (Str.trim (first_p_text el))); [|exact H].
    destruct (Str.truthy (Str.trim (bold_text el))) eqn:E; [|exact H].
    apply set_property_Forall; [|exact H]. simpl. now apply truthy_iff.
Qed.

Lemma second_pass_step_well_formed (attrs : gmap string AttrValue) (el : FieldElement) :
  map_Forall (fun _ v => well_formed_value v) attrs ->
  map_Forall (fun _ v => well_formed_value v) (second_pass_step attrs el).
Proof.
  intros H. destruct (decide (second_pass_writes el)) as [Hw|Hw].
  - rewrite second_pass_step_writes by exact Hw.
    apply map_Forall_insert_2; [|exact H].
    apply split_value_well_formed. apply Hw.
  - now rewrite second_pass_step_skips.
Qed.

Lemma fold_left_invariant {A B} (P : A -> Prop) (f : A -> B -> A) (l : list B) (a : A) :
  (forall a b, P a -> P (f a b)) -> P a -> P (fold_left f l a).
Proof.
  intros Hf. revert a. induction l as [|b l IH]; intros a Ha; [exact Ha|].
  simpl. apply IH, Hf, Ha.
Qed.

Lemma first_pass_step_empty_label (attrs : gmap string AttrValue) (el : FieldElement) :
  is_Some (first_pass_step attrs el !! EmptyString) ->
  is_Some (attrs !! EmptyString) \/ (full_row el /\ label el = EmptyString).
Proof.
  unfold first_pass_step, full_row, label.
  destruct (decide (Str.trim (first_p_text el) = EmptyString)) as [Hl|Hl].
  - rewrite Hl. destruct (hasClass_fullRow el) eqn:Ec; simpl.
    + destruct (Str.truthy (Str.trim (width75_text el))); auto.
    + destruct (0 <? width75_length el)%nat eqn:Ew; [|auto].
      apply Nat.ltb_lt in Ew.
      destruct (Str.truthy (Str.trim (width75_text el))); auto.
  - destruct (hasClass_fullRow el || (0 <? width75_length el)%nat).
    + destruct (Str.truthy (Str.trim (width75_text el))); [|auto].
      rewrite lookup_set_property_ne by exact Hl. auto.
    + destruct (Str.truthy (Str.trim (first_p_text el))
                && Str.truthy (Str.trim (bold_text el))); [|auto].
      rewrite lookup_set_property_ne by exact Hl. auto.
Qed.

Lemma first_pass_empty_label (els : list FieldElement) (attrs : gmap string AttrValue) :
  is_Some (fold_left first_pass_step els attrs !! EmptyString) ->
  is_Some (attrs !! EmptyString) \/
  exists el, el ∈ els /\ full_row el /\ label el = EmptyString.
Proof.
  revert attrs. induction els as [|el els IH]; intros attrs H; [now left|].
  cbn [fold_left] in H. apply IH in H as [H|(el' & Hel' & Hr)].
  - apply first_pass_step_empty_label in H as [H|H]; [now left|].
    right. exists el. split; [left | exact H].
  - right. exists el'. split; [now right | exact Hr].
Qed.

End AttributeValues.

(** X10. After the two passes every attribute value is a non-empty text
    or a sequence of at least two non-empty texts; and an attribute stored
    under the empty label can only come from a field that the first pass
    reads as a full row, the one place where the label is not tested. *)
Theorem attributes_well_formed (page : DetailPage) :
  let attrs := d_attributes (extract_details page) in
  map_Forall (fun _ v => well_formed_value v) attrs /\
  (is_Some (attrs !! EmptyString) ->
   exists el, el ∈ info_fields page /\ full_row el /\ label el = EmptyString).
Proof.
  cbv zeta. cbn [d_attributes extract_details]. unfold second_pass, first_pass. split.
  - apply fold_left_invariant; [apply second_pass_step_well_formed|].
    apply fold_left_invariant; [apply first_pass_step_well_formed|].
    apply map_Forall_empty.
  - rewrite second_pass_lookup.
    rewrite filter_none.
    + cbn [last]. intros H. apply first_pass_empty_label in H as [H|H]; [|exact H].
      rewrite lookup_empty in H. now destruct H.
    + intros el _ [(Hl & _) He]. now apply Hl.
Qed.

Lemma attributes_well_formed_witness :
  exists el,
    el ∈ info_fields unlabelled_page /\ full_row el /\ label el = EmptyString.
Proof.
  destruct (attributes_well_formed unlabelled_page) as [_ H].
  apply H. vm_compute. eauto.
Defined.

(** ** Price parsing: digits, separators and signs *)

Section PriceDigits.









End PriceDigits.



(** ** Outliers and the statistics of the front end *)

Section OutlierFacts.

Lemma elem_of_positive_prices (l : list ScrapedItem) (p : Q) :
  p ∈ positive_prices l <->
  exists item, item ∈ l /\ priced item /\ price item = Some p.
Proof.
  unfold positive_prices. rewrite list_elem_of_omap. split.
  - intros (item & Hin & Hp). apply list_elem_of_filter in Hin as [Hpr Hin]. eauto.
  - intros (item & Hin & Hpr & Hp). exists item. split; [|exact Hp].
    apply list_elem_of_filter. auto.
Qed.

Lemma sorted_lookup_le (s : list Q) (i j : nat) (x y : Q) :
  StronglySorted Qle s -> (i <= j)%nat ->
  s !! i = Some x -> s !! j = Some y -> x <= y.
Proof.
  intros Hs. revert i j. induction Hs as [|a s Hs IH Ha]; intros i j Hij Hx Hy.
  - discriminate Hx.
  - destruct i as [|i], j as [|j]; simpl in *; try lia.
    + injection Hx as ->. injection Hy as ->. apply Qle_refl.
    + injection Hx as ->. rewrite Forall_forall in Ha. apply Ha.
      apply list_elem_of_lookup. eauto.
    + apply (IH i j); [lia | assumption..].
Qed.

Lemma NoDup_fmap_eq {A B} (f : A -> B) (l : list A) (x y : A) :
  NoDup (f <$> l) -> x ∈ l -> y ∈ l -> f x = f y -> x = y.
Proof.
  induction l as [|a l IH]; intros Hnd Hx Hy Hf; [inversion Hx|].
  rewrite fmap_cons in Hnd. apply NoDup_cons in Hnd as [Ha Hnd].
  apply elem_of_cons in Hx as [->|Hx]; apply elem_of_cons in Hy as [->|Hy].
  - reflexivity.
  - exfalso. apply Ha. rewrite Hf. now apply list_elem_of_fmap_2.
  - exfalso. apply Ha. rewrite <- Hf. now apply list_elem_of_fmap_2.
  - now apply IH.
Qed.


(** The quantiles that the code reads are in order. *)
Lemma quantiles_ordered (ps : list Q) (q1 q3 : Q) :
  let n := length ps in
  merge_sort Qle ps !! (n / 4)%nat = Some q1 ->
  merge_sort Qle ps !! (3 * n / 4)%nat = Some q3 ->
  q1 <= q3.
Proof.
  intros n H1 H3.
  apply (sorted_lookup_le (merge_sort Qle ps) (n / 4) (3 * n / 4)); try assumption.
  - apply (StronglySorted_merge_sort Qle).
  - apply Nat.Div0.div_le_mono. lia.
Qed.

End OutlierFacts.

(** X12. When the positive-priced items have pairwise distinct links,
    [detectOutliers] never flags all of them: some positive-priced item is
    left unflagged (with 4 or more, the one at the lower quantile). *)
Theorem detectOutliers_spares_one (scraped : list ScrapedItem) :
  positive_prices scraped <> [] ->
  NoDup (link <$> filter priced scraped) ->
  exists item, item ∈ scraped /\ priced item /\ link item ∉ detectOutliers scraped.
Proof.
  intros Hne Hnd.
  destruct (Nat.lt_ge_cases (length (positive_prices scraped)) 4) as [Hn|Hn].
  - rewrite (detectOutliers_small scraped Hn).
    destruct (positive_prices scraped) as [|p ps] eqn:E; [congruence|].
    assert (Hp : p ∈ positive_prices scraped) by (rewrite E; left).
    apply elem_of_positive_prices in Hp as (item & Hin & Hpr & _).
    exists item. split; [exact Hin|]. split; [exact Hpr|]. apply not_elem_of_empty.
  - destruct (detectOutliers_unfold scraped Hn) as (q1 & q3 & H1 & H3 & Hflag).
    pose proof (quantiles_ordered _ _ _ H1 H3) as Hle.
    assert (Hq1 : q1 ∈ positive_prices scraped).
    { rewrite <- (merge_sort_Permutation Qle). apply list_elem_of_lookup. eauto. }
    apply elem_of_positive_prices in Hq1 as (item & Hin & Hpr & Hprice).
    exists item. split; [exact Hin|]. split; [exact Hpr|].
    intros Hout. apply Hflag in Hout as (item' & p' & Hin' & Hpr' & Hl & Hp' & Hw).
    assert (item' = item) as ->.
    { apply (NoDup_fmap_eq link (filter priced scraped)); try assumption;
        apply list_elem_of_filter; auto. }
    rewrite Hprice in Hp'. injection Hp' as <-.
    apply Hw. unfold within. split; lra.
Qed.

Lemma detectOutliers_spares_one_witness :
  exists item,
    item ∈ spread_items /\ priced item /\ link item ∉ detectOutliers spread_items.
Proof.
  apply detectOutliers_spares_one.
  - vm_compute. discriminate.
  - apply (bool_decide_unpack _). vm_compute. exact I.
Defined.

(** X13. The set of outliers does not depend on the order of the items. *)
Theorem detectOutliers_permutation (scraped scraped' : list ScrapedItem) :
  scraped ≡ₚ scraped' -> detectOutliers scraped = detectOutliers scraped'.
Proof.
  intros Hperm.
  assert (Hps : positive_prices scraped ≡ₚ positive_prices scraped').
  { unfold positive_prices. now rewrite Hperm. }
  pose proof (Permutation_length Hps) as Hlen.
  destruct (Nat.lt_ge_cases (length (positive_prices scraped)) 4) as [Hn|Hn].
  - rewrite (detectOutliers_small scraped Hn).
    rewrite Hlen in Hn. now rewrite (detectOutliers_small scraped' Hn).
  - destruct (detectOutliers_unfold scraped Hn) as (q1 & q3 & H1 & H3 & Hflag).
    assert (Hn' : (4 <= length (positive_prices scraped'))%nat) by lia.
    destruct (detectOutliers_unfold scraped' Hn') as (r1 & r3 & R1 & R3 & Hflag').
    rewrite <- Hlen in R1, R3.
    assert (Hms : merge_sort Qle (positive_prices scraped)
                  ≡ₚ merge_sort Qle (positive_prices scraped')).
    { now rewrite !merge_sort_Permutation. }
    pose proof (sorted_lookup_unique _ _ _ _ _ (Sorted_merge_sort Qle _)
                  (Sorted_merge_sort Qle _) Hms H1 R1) as E1.
    pose proof (sorted_lookup_unique _ _ _ _ _ (Sorted_merge_sort Qle _)
                  (Sorted_merge_sort Qle _) Hms H3 R3) as E3.
    apply set_eq. intros l. rewrite Hflag, Hflag'. unfold flagged_by, within.
    split; intros (item & p & Hin & Hpr & Hl & Hp & Hw); exists item, p;
      (split; [first [now rewrite <- Hperm | now rewrite Hperm]|]);
      repeat split; try assumption; intros [Ha Hb]; apply Hw; split; lra.
Qed.

Lemma detectOutliers_permutation_witness :
  detectOutliers (rev spread_items) = detectOutliers spread_items.
Proof.
  apply detectOutliers_permutation. symmetry. apply Permutation_rev.
Defined.

Section StatsFacts.







End StatsFacts.




(** ** The state updates of the front end *)

Lemma elem_of_handleToggleExclude (l x : string) (prev : gset string) :
  x ∈ handleToggleExclude l prev <->
  (x = l /\ (l ∉ prev)) \/ (x <> l /\ x ∈ prev).
Proof.
  unfold handleToggleExclude. destruct (decide (l ∈ prev)) as [Hin|Hin].
  - rewrite elem_of_difference, elem_of_singleton. tauto.
  - rewrite elem_of_union, elem_of_singleton.
    destruct (decide (x = l)) as [->|Hx]; tauto.
Qed.

(** X16. Toggling the exclusion of a link flips whether it is excluded,
    leaves every other link as it was, and toggling twice restores the set. *)
Theorem handleToggleExclude_flips (l : string) (prev : gset string) :
  (l ∈ handleToggleExclude l prev <-> l ∉ prev) /\
  (forall l', l' <> l -> l' ∈ handleToggleExclude l prev <-> l' ∈ prev) /\
  handleToggleExclude l (handleToggleExclude l prev) = prev.
Proof.
  split; [|split].
  - rewrite elem_of_handleToggleExclude. tauto.
  - intros l' Hl'. rewrite elem_of_handleToggleExclude. tauto.
  - apply set_eq. intros x. rewrite !elem_of_handleToggleExclude.
    destruct (decide (x = l)) as [->|Hx]; [|tauto].
    destruct (decide (l ∈ prev)); tauto.
Qed.

Section FilterFacts.






End FilterFacts.




(** ** Reading kilometre labels *)

Section KilometreFacts.







Lemma append_cons (c : ascii) (s t : string) :
  String c s +:+ t = String c (s +:+ t).
Proof. reflexivity. Qed.







End KilometreFacts.



(** ** The export *)

Section ExportFacts.

Lemma read_quoted_double (v : string) :
  read_quoted (Str.double_quotes v +:+ String Str.quote EmptyString) = v.
Proof.
  induction v as [|c v IH]; [reflexivity|]. cbn [Str.double_quotes].
  destruct (Ascii.eqb c Str.quote) eqn:E.
  - apply Ascii.eqb_eq in E as ->. rewrite !append_cons. cbn [read_quoted].
    rewrite Ascii.eqb_refl. now rewrite IH.
  - rewrite append_cons. cbn [read_quoted]. rewrite E. now rewrite IH.
Qed.

End ExportFacts.

(** X20. A value escaped for the export is read back unchanged by a reader
    of comma-separated values, so two different values never give the same
    field; a field left without quotes holds no comma, quote or line feed. *)
Theorem csv_escape_round_trip (val : string) :
  csv_unescape (csv_escape val) = val /\
  (forall val', csv_escape val = csv_escape val' -> val = val') /\
  (Str.has_char Str.quote (csv_escape val) = false ->
   Str.has_char ","%char (csv_escape val) = false /\
   Str.has_char Str.newline (csv_escape val) = false).
Proof.
  assert (Hback : forall v, csv_unescape (csv_escape v) = v).
  { intros v. unfold csv_escape.
    destruct (Str.has_char "," v || Str.has_char Str.quote v
              || Str.has_char Str.newline v) eqn:E.
    - cbn [csv_unescape]. rewrite Ascii.eqb_refl. apply read_quoted_double.
    - apply orb_false_iff in E as [E _]. apply orb_false_iff in E as [_ E].
      destruct v as [|c v]; [reflexivity|]. cbn [Str.has_char] in E.
      apply orb_false_iff in E as [E _]. cbn [csv_unescape]. now rewrite E. }
  split; [apply Hback|]. split.
  - intros val' Heq. rewrite <- (Hback val), <- (Hback val'). now rewrite Heq.
  - unfold csv_escape.
    destruct (Str.has_char "," val || Str.has_char Str.quote val
              || Str.has_char Str.newline val) eqn:E.
    + cbn [Str.has_char]. rewrite Ascii.eqb_refl. discriminate.
    + intros _. apply orb_false_iff in E as [E E3].
      apply orb_false_iff in E as [E1 _]. now split.
Qed.
